(** * Bindu core: retry engine, JSONB codec and PostgreSQL storage

    Shallow embedding of [bindu.utils.retry] and
    [bindu.server.storage.postgres_storage].  Only the unit tests of these
    modules ([tests/unit/test_retry.py], [tests/unit/test_postgres_storage.py])
    are part of the sources; the modules themselves are modelled from the
    design document, with every detail the tests pin down (error kinds and
    messages, order of the checks, default values) taken from the tests. *)

From Stdlib Require Import List String Ascii ZArith NArith Bool Lia.
Import ListNotations.
Open Scope string_scope.
Set Warnings "-register-all".


(* ------------------------------------------------------------------------- *)
(** ** Python exceptions *)

(** The exception classes that reach the retry engine and the storage. *)
Inductive exc_kind :=
| BaseException_ | Exception_ | OSError | ConnectionError | ConnectionRefusedError
| ConnectionResetError | BrokenPipeError | TimeoutError | AsyncioTimeoutError
| OperationalError | TypeError | RuntimeError | ValueError | KeyError | IndexError.

Definition exc_kind_eqb (a b : exc_kind) : bool :=
  match a, b with
  | BaseException_, BaseException_ | Exception_, Exception_ | OSError, OSError
  | ConnectionError, ConnectionError
  | ConnectionRefusedError, ConnectionRefusedError
  | ConnectionResetError, ConnectionResetError
  | BrokenPipeError, BrokenPipeError | TimeoutError, TimeoutError
  | AsyncioTimeoutError, AsyncioTimeoutError
  | OperationalError, OperationalError | TypeError, TypeError
  | RuntimeError, RuntimeError | ValueError, ValueError
  | KeyError, KeyError | IndexError, IndexError => true
  | _, _ => false
  end.

(** The Python class hierarchy: the direct base class of each class. *)
Definition base_class (k : exc_kind) : option exc_kind :=
  match k with
  | BaseException_ => None
  | Exception_ => Some BaseException_
  | OSError => Some Exception_
  | ConnectionError => Some OSError
  | ConnectionRefusedError | ConnectionResetError | BrokenPipeError =>
      Some ConnectionError
  | TimeoutError => Some OSError
  | AsyncioTimeoutError => Some Exception_
  | OperationalError => Some Exception_
  | TypeError | RuntimeError | ValueError => Some Exception_
  | KeyError | IndexError => Some Exception_
  end.

(** [isinstance(e, cls)] on the class of [e]: walk up the hierarchy
    (it has depth at most 5). *)
Fixpoint is_subclass_fuel (fuel : nat) (k cls : exc_kind) : bool :=
  exc_kind_eqb k cls ||
  match fuel, base_class k with
  | S f, Some b => is_subclass_fuel f b cls
  | _, _ => false
  end.

Definition is_subclass (k cls : exc_kind) : bool := is_subclass_fuel 5 k cls.

(** A raised exception: its class and its message ([str(e)]). *)
Record exn := mk_exn { exn_kind : exc_kind; exn_msg : string }.

Definition isinstance (e : exn) (cls : exc_kind) : bool :=
  is_subclass (exn_kind e) cls.

(** Outcome of a Python call: a returned value or a raised exception. *)
Inductive outcome (A : Type) :=
| Ok (a : A)
| Raise (e : exn).
Arguments Ok {A} a.
Arguments Raise {A} e.

(* ------------------------------------------------------------------------- *)
(** ** Retry Policy Engine ([bindu.utils.retry]) *)

Module Retry.

(** Modelled from the spec: [is_retryable_error], the transient error
    classification of section 7 (connection dropped, operational timeout);
    the classes are the ones of [test_is_retryable_error]. *)
Definition is_retryable_error (e : exn) : bool :=
  isinstance e ConnectionError || isinstance e TimeoutError
  || isinstance e AsyncioTimeoutError.

(** A retry policy [{max_attempts, min_wait, max_wait}]; waits in ms. *)
Record policy := mk_policy {
  max_attempts : nat;
  min_wait : Z;
  max_wait : Z
}.

(** The four named defaults of the settings (section 4.3). *)
Definition worker_policy := mk_policy 3 1000 10000.
Definition storage_policy := mk_policy 5 500 5000.
Definition scheduler_policy := mk_policy 3 1000 8000.
Definition api_policy := mk_policy 4 1000 15000.

(** Modelled from the spec: the backoff wait before attempt [attempt + 1],
    exponential in the attempt number and clamped to [[min_wait, max_wait]]
    (the open question of section 9 settles on a capped exponential). *)
Definition backoff (p : policy) (attempt : nat) : Z :=
  Z.min (max_wait p) (Z.max (min_wait p) (1000 * 2 ^ (Z.of_nat attempt - 1))).

(** Result of running an operation under the engine: the outcome seen by
    the caller, the operation's final state, the number of invocations and
    the waits slept between attempts (the logging side channel). *)
Record run_result (St A : Type) := mk_run {
  run_outcome : outcome A;
  run_state : St;
  run_calls : nat;
  run_waits : list Z
}.
Arguments mk_run {St A}.
Arguments run_outcome {St A}.
Arguments run_state {St A}.
Arguments run_calls {St A}.
Arguments run_waits {St A}.

Section Engine.
Context {St A : Type}.
Variable p : policy.
(** The wrapped coroutine: one invocation on the state it observes. *)
Variable op : St -> outcome A * St.

(** Modelled from the spec: the retry loop of [execute_with_retry] and of
    the [retry_*_operation] decorators (tenacity's [AsyncRetrying] with
    [stop_after_attempt(max_attempts)], [reraise=True] and
    [retry_if_exception(is_retryable_error)]).  [attempt] is the number of
    the attempt about to run, [fuel] the attempts still allowed after it. *)
Fixpoint retry_loop (fuel attempt : nat) (s : St) : run_result St A :=
  let (o, s') := op s in
  match o with
  | Ok a => mk_run (Ok a) s' attempt []
  | Raise e =>
      if is_retryable_error e && Nat.ltb attempt (max_attempts p) then
        match fuel with
        | O => mk_run (Raise e) s' attempt []
        | S f =>
            let r := retry_loop f (S attempt) s' in
            mk_run (run_outcome r) (run_state r) (run_calls r)
              (backoff p attempt :: run_waits r)
        end
      else mk_run (Raise e) s' attempt []
  end.

Definition execute_with_retry (s : St) : run_result St A :=
  retry_loop (max_attempts p) 1 s.

End Engine.

End Retry.

(* ------------------------------------------------------------------------- *)
(** ** Serialization Codec ([_serialize_for_jsonb]) *)

Module Codec.

(** A UUID is its 128-bit integer value ([uuid.UUID.int]). *)
Definition uuid := N.

(** In-memory values handed to the JSONB columns: primitives, UUIDs, lists
    and dicts (string keys, insertion order kept). *)
Inductive json :=
| JNull
| JBool (b : bool)
| JNum (z : Z)
| JStr (s : string)
| JUuid (u : uuid)
| JList (l : list json)
| JDict (kvs : list (string * json)).

Definition hex_char (d : N) : ascii :=
  match String.get (N.to_nat d) "0123456789abcdef" with
  | Some c => c
  | None => "0"%char
  end.

(** ['%0{k}x' % n]: the last [k] hexadecimal digits, most significant first. *)
Fixpoint hex_digits (k : nat) (n : N) : string :=
  match k with
  | O => ""
  | S k' => hex_digits k' (N.div n 16) ++ String (hex_char (N.modulo n 16)) ""
  end.

(** [str(uuid)]: the canonical 8-4-4-4-12 lowercase form. *)
Definition uuid_str (u : uuid) : string :=
  let h := hex_digits 32 u in
  substring 0 8 h ++ "-" ++ substring 8 4 h ++ "-" ++ substring 12 4 h ++ "-"
  ++ substring 16 4 h ++ "-" ++ substring 20 12 h.

(** Modelled from the spec: [_serialize_for_jsonb] (section 4.1): a UUID
    becomes [str(uuid)], dicts and lists are rebuilt with their values and
    elements serialized, anything else is returned as it is. *)
Fixpoint serialize_for_jsonb (v : json) : json :=
  match v with
  | JUuid u => JStr (uuid_str u)
  | JDict kvs => JDict (map (fun kv => (fst kv, serialize_for_jsonb (snd kv))) kvs)
  | JList l => JList (map serialize_for_jsonb l)
  | JNull | JBool _ | JNum _ | JStr _ => v
  end.

(** Navigation into a value: [v[k]] on a dict, [v[i]] on a list. *)
Inductive step := Key (k : string) | Idx (i : nat).

Fixpoint dict_get {B} (k : string) (kvs : list (string * B)) : option B :=
  match kvs with
  | [] => None
  | (k', x) :: rest => if String.eqb k k' then Some x else dict_get k rest
  end.

Fixpoint at_path (v : json) (p : list step) : option json :=
  match p with
  | [] => Some v
  | Key k :: p' =>
      match v with
      | JDict kvs => match dict_get k kvs with Some x => at_path x p' | None => None end
      | _ => None
      end
  | Idx i :: p' =>
      match v with
      | JList l => match nth_error l i with Some x => at_path x p' | None => None end
      | _ => None
      end
  end.

Definition is_primitive (v : json) : bool :=
  match v with
  | JNull | JBool _ | JNum _ | JStr _ => true
  | _ => false
  end.

(** Does a raw UUID occur anywhere in the value? *)
Fixpoint has_raw_uuid (v : json) : bool :=
  match v with
  | JUuid _ => true
  | JList l => existsb has_raw_uuid l
  | JDict kvs => existsb (fun kv => has_raw_uuid (snd kv)) kvs
  | _ => false
  end.

End Codec.

(* ------------------------------------------------------------------------- *)
(** ** PostgreSQL storage ([PostgresStorage]) *)

Module Storage.
Import Codec.

(** A Python argument handed to a repository call. *)
Inductive pyval :=
| PUuid (u : uuid)
| PStr (s : string)
| PInt (z : Z)
| PNone.

Definition py_type_name (v : pyval) : string :=
  match v with
  | PUuid _ => "UUID" | PStr _ => "str" | PInt _ => "int" | PNone => "NoneType"
  end.

(** Task lifecycle states (section 4.4) and their column spelling. *)
Inductive task_state := Submitted | Working | InputRequired | Completed | Failed | Cancelled.

Definition state_str (st : task_state) : string :=
  match st with
  | Submitted => "submitted" | Working => "working"
  | InputRequired => "input-required" | Completed => "completed"
  | Failed => "failed" | Cancelled => "cancelled"
  end.

Definition parse_state (s : string) : option task_state :=
  if String.eqb s "submitted" then Some Submitted
  else if String.eqb s "working" then Some Working
  else if String.eqb s "input-required" then Some InputRequired
  else if String.eqb s "completed" then Some Completed
  else if String.eqb s "failed" then Some Failed
  else if String.eqb s "cancelled" then Some Cancelled
  else None.

(** Modelled from the spec: the legal-transition table of section 4.4. *)
Definition legal_transition (cur nxt : task_state) : bool :=
  match cur, nxt with
  | Submitted, Working | Working, InputRequired | InputRequired, Working
  | Working, Completed | Working, Failed
  | Submitted, Cancelled | Working, Cancelled => true
  | _, _ => false
  end.

(** A row of the tasks table; the JSONB columns may hold SQL NULL. *)
Record task_row := mk_row {
  row_id : uuid;
  row_context_id : uuid;
  row_kind : string;
  row_state : string;
  row_state_timestamp : Z;
  row_history : option (list json);
  row_artifacts : option (list json);
  row_metadata : option (list (string * json))
}.

Record task_status := mk_status { status_state : string; status_timestamp : Z }.

(** The [Task] dict returned to callers. *)
Record task := mk_task {
  task_id : uuid;
  task_context_id : uuid;
  task_kind : string;
  task_status_ : task_status;
  task_history : list json;
  task_artifacts : list json;
  task_metadata : list (string * json)
}.

(** Modelled from the spec: [_row_to_task] (section 4.4): [id],
    [context_id] and [kind] copied, [state]/[state_timestamp] nested into
    [status], [history or []], [artifacts or []], [metadata or {}]. *)
Definition _row_to_task (r : task_row) : task :=
  mk_task (row_id r) (row_context_id r) (row_kind r)
    (mk_status (row_state r) (row_state_timestamp r))
    (match row_history r with Some l => l | None => [] end)
    (match row_artifacts r with Some l => l | None => [] end)
    (match row_metadata r with Some m => m | None => [] end).

(** The composed view returned by [load_context]. *)
Record context_view := mk_ctx { ctx_id : uuid; ctx_tasks : list task }.

(** Round-trips sent to the store, in the order they happen. *)
Inductive io_event :=
| IoPing | IoDispose
| IoSelectTask (u : uuid) | IoInsertTask (u : uuid) | IoUpdateTask (u : uuid)
| IoSelectContext (u : uuid).

(** One [PostgresStorage] instance together with the store it talks to:
    [faults] are the transient errors the next round-trips will hit,
    [next_uuid] the source of [uuid4()] and [clock] the value of
    [datetime.now(timezone.utc)] (ms). *)
Record storage := mk_storage {
  database_url : string;
  _engine : option N;
  _session_factory : option N;
  tasks : list task_row;
  contexts : list uuid;
  io_log : list io_event;
  faults : list exn;
  next_uuid : uuid;
  clock : Z
}.

Definition set_conn (e f : option N) (s : storage) : storage :=
  mk_storage (database_url s) e f (tasks s) (contexts s) (io_log s) (faults s)
    (next_uuid s) (clock s).
Definition set_tables (ts : list task_row) (cs : list uuid) (n : uuid) (s : storage) : storage :=
  mk_storage (database_url s) (_engine s) (_session_factory s) ts cs (io_log s)
    (faults s) n (clock s).
Definition set_io (l : list io_event) (fs : list exn) (s : storage) : storage :=
  mk_storage (database_url s) (_engine s) (_session_factory s) (tasks s)
    (contexts s) l fs (next_uuid s) (clock s).
Definition set_clock (t : Z) (s : storage) : storage :=
  mk_storage (database_url s) (_engine s) (_session_factory s) (tasks s)
    (contexts s) (io_log s) (faults s) (next_uuid s) t.

(** Coroutines of the storage: state passing with exceptions. *)
Definition M (A : Type) := storage -> outcome A * storage.

Definition ret {A} (a : A) : M A := fun s => (Ok a, s).
Definition raise {A} (e : exn) : M A := fun s => (Raise e, s).
Definition bind {A B} (m : M A) (k : A -> M B) : M B :=
  fun s => match m s with
           | (Ok a, s') => k a s'
           | (Raise e, s') => (Raise e, s')
           end.
Notation "x <- m ;; k" := (bind m (fun x => k)) (at level 61, m at next level, right associativity).

(** Modelled from the spec: the URL normalization of section 4.2. *)
Definition driver_scheme := "postgresql+asyncpg://".
Definition generic_scheme := "postgresql://".

Definition normalize_database_url (url : string) : string :=
  if String.prefix driver_scheme url then url
  else if String.prefix generic_scheme url then
    driver_scheme ++ substring (String.length generic_scheme) (String.length url) url
  else driver_scheme ++ url.

(** [PostgresStorage(database_url=url)] over an empty store: not connected. *)
Definition PostgresStorage (url : string) : storage :=
  mk_storage (normalize_database_url url) None None [] [] [] [] 1%N 0%Z.

Definition not_initialized : exn :=
  mk_exn RuntimeError "PostgreSQL engine not initialized. Call connect() first.".

(** Modelled from the spec: [_ensure_connected], the not-initialized guard. *)
Definition _ensure_connected : M unit :=
  fun s => match _engine s, _session_factory s with
           | Some _, Some _ => (Ok tt, s)
           | _, _ => (Raise not_initialized, s)
           end.

(** Modelled from the spec: the identifier type guard of the repository
    calls, with the messages of the unit tests. *)
Definition type_guard (name : string) (v : pyval) : M uuid :=
  match v with
  | PUuid u => ret u
  | _ => raise (mk_exn TypeError (name ++ " must be UUID, got " ++ py_type_name v))
  end.

(** One session round-trip: logged, then either hit by the next pending
    transient fault or carried out by [k]. *)
Definition round_trip {A} (ev : io_event) (k : M A) : M A :=
  fun s =>
    let s1 := set_io (io_log s ++ [ev]) (faults s) s in
    match faults s1 with
    | f :: fs => (Raise f, set_io (io_log s1) fs s1)
    | [] => k s1
    end.

(** The store operations run under the "storage operation" policy. *)
Definition with_retry {A} (m : M A) : M A :=
  fun s => let r := Retry.execute_with_retry Retry.storage_policy m s in
           (Retry.run_outcome r, Retry.run_state r).

Fixpoint find_row (u : uuid) (rows : list task_row) : option task_row :=
  match rows with
  | [] => None
  | r :: rest => if N.eqb (row_id r) u then Some r else find_row u rest
  end.

(** [UPDATE tasks SET ... WHERE id = :id]. *)
Definition replace_row (r' : task_row) (rows : list task_row) : list task_row :=
  map (fun r => if N.eqb (row_id r) (row_id r') then r' else r) rows.

(** Modelled from the spec: [load_task]. *)
Definition load_task (task_id : pyval) : M (option task) :=
  u <- type_guard "task_id" task_id ;;
  _ <- _ensure_connected ;;
  with_retry (round_trip (IoSelectTask u)
    (fun s => (Ok (option_map _row_to_task (find_row u (tasks s))), s))).

(** The insert transaction of [submit_task]. *)
Definition _submit_tx (c : uuid) (message : json) : M task :=
  fun s0 =>
    let u := next_uuid s0 in
    round_trip (IoInsertTask u) (fun s =>
      let r := mk_row u c "task" (state_str Submitted) (clock s)
                 (Some [serialize_for_jsonb message]) (Some []) (Some []) in
      let cs := if existsb (N.eqb c) (contexts s) then contexts s else c :: contexts s in
      (Ok (_row_to_task r), set_tables (r :: tasks s) cs (N.succ u) s)) s0.

(** Modelled from the spec: [submit_task]. *)
Definition submit_task (context_id : pyval) (message : json) : M task :=
  c <- type_guard "context_id" context_id ;;
  _ <- _ensure_connected ;;
  with_retry (_submit_tx c message).

(** Modelled from the spec: [load_context]. *)
Definition load_context (context_id : pyval) : M (option context_view) :=
  c <- type_guard "context_id" context_id ;;
  _ <- _ensure_connected ;;
  with_retry (round_trip (IoSelectContext c) (fun s =>
    (Ok (if existsb (N.eqb c) (contexts s) then
           Some (mk_ctx c (map _row_to_task
                  (filter (fun r => N.eqb (row_context_id r) c) (tasks s))))
         else None), s))).

Definition illegal_transition (from : string) (to_ : task_state) : exn :=
  mk_exn ValueError ("Invalid state transition from " ++ from ++ " to " ++ state_str to_).

(** The transaction of [update_task_state]: the row is read and written
    under its row lock; only legal edges are taken. *)
Definition _update_state_tx (u : uuid) (new_state : task_state) : M task :=
  fun s =>
    match find_row u (tasks s) with
    | None => (Raise (mk_exn KeyError ("Task not found: " ++ uuid_str u)), s)
    | Some r =>
        match parse_state (row_state r) with
        | Some cur =>
            if legal_transition cur new_state then
              let r' := mk_row (row_id r) (row_context_id r) (row_kind r)
                          (state_str new_state) (clock s) (row_history r)
                          (row_artifacts r) (row_metadata r) in
              (Ok (_row_to_task r'),
               set_tables (replace_row r' (tasks s)) (contexts s) (next_uuid s) s)
            else (Raise (illegal_transition (row_state r) new_state), s)
        | None => (Raise (illegal_transition (row_state r) new_state), s)
        end
    end.

(** Modelled from the spec: [update_task_state] (section 4.4). *)
Definition update_task_state (task_id : pyval) (new_state : task_state) : M task :=
  u <- type_guard "task_id" task_id ;;
  _ <- _ensure_connected ;;
  with_retry (round_trip (IoUpdateTask u) (_update_state_tx u new_state)).

(** Modelled from the spec: [connect()]: engine creation and the
    [SELECT 1] check; [reachable] is whether they succeed.  On failure no
    engine is kept. *)
Definition connect (reachable : bool) : M unit :=
  fun s =>
    let s1 := set_io (io_log s ++ [IoPing]) (faults s) s in
    if reachable then (Ok tt, set_conn (Some 1%N) (Some 1%N) s1)
    else (Raise (mk_exn ConnectionError "Failed to connect to PostgreSQL: connection refused"),
          set_conn None None s1).

(** Modelled from the spec: [disconnect()]: dispose the engine if there is
    one, then drop engine and session factory. *)
Definition disconnect : M unit :=
  fun s =>
    match _engine s with
    | Some _ => (Ok tt, set_conn None None (set_io (io_log s ++ [IoDispose]) (faults s) s))
    | None => (Ok tt, set_conn None None s)
    end.

(** Calls made on one instance over its lifetime, interleaved with the
    environment: the wall clock moving and transient faults at the store. *)
Inductive call :=
| CConnect (reachable : bool)
| CDisconnect
| CSubmit (context_id : pyval) (message : json)
| CLoadTask (task_id : pyval)
| CLoadContext (context_id : pyval)
| CUpdate (task_id : pyval) (new_state : task_state)
| CClock (now : Z)
| CFault (e : exn).

Definition exec_call (c : call) (s : storage) : storage :=
  match c with
  | CConnect b => snd (connect b s)
  | CDisconnect => snd (disconnect s)
  | CSubmit v m => snd (submit_task v m s)
  | CLoadTask v => snd (load_task v s)
  | CLoadContext v => snd (load_context v s)
  | CUpdate v st => snd (update_task_state v st s)
  | CClock t => set_clock t s
  | CFault e => set_io (io_log s) (faults s ++ [e]) s
  end.

Fixpoint run_trace (cs : list call) (s : storage) : storage :=
  match cs with
  | [] => s
  | c :: rest => run_trace rest (exec_call c s)
  end.

(** The wall clock never goes back along the trace. *)
Fixpoint clock_monotone (t0 : Z) (cs : list call) : Prop :=
  match cs with
  | [] => True
  | CClock t :: rest => t0 <= t /\ clock_monotone t rest
  | _ :: rest => clock_monotone t0 rest
  end%Z.

Definition ts_of (u : uuid) (s : storage) : option Z :=
  option_map row_state_timestamp (find_row u (tasks s)).

(** No stored timestamp lies in the future of the clock. *)
Definition timestamps_bounded (s : storage) : Prop :=
  forall r, In r (tasks s) -> (row_state_timestamp r <= clock s)%Z.

End Storage.

(** The coroutine of [test_execute_with_retry_after_failures]: the
    counter [call_count] is its state; it fails until the [n]-th call. *)
Definition flaky_func (n : nat) (c : nat) : outcome string * nat :=
  if Nat.ltb (S c) n then (Raise (mk_exn ConnectionError "Temporary error"), S c)
  else (Ok "success", S c).

(* ------------------------------------------------------------------------- *)
(** ** The echo agent ([examples/echo_agent.py]) *)

Module Echo.
Import Codec.

(** [type(v).__name__] for the error messages of [v["content"]]. *)
Definition subscript_error (v : json) : exn :=
  match v with
  | JNull => mk_exn TypeError "'NoneType' object is not subscriptable"
  | JBool _ => mk_exn TypeError "'bool' object is not subscriptable"
  | JNum _ => mk_exn TypeError "'int' object is not subscriptable"
  | JStr _ => mk_exn TypeError "string indices must be integers, not 'str'"
  | JUuid _ => mk_exn TypeError "'UUID' object is not subscriptable"
  | JList _ => mk_exn TypeError "list indices must be integers or slices, not str"
  | JDict _ => mk_exn KeyError "'content'"
  end.

(** [handler(messages)]:
    [return [{"role": "assistant", "content": messages[-1]["content"]}]]. *)
Definition handler (messages : list json) : outcome (list json) :=
  match rev messages with
  | [] => Raise (mk_exn IndexError "list index out of range")
  | last :: _ =>
      match last with
      | JDict kvs =>
          match dict_get "content" kvs with
          | Some c => Ok [JDict [("role", JStr "assistant"); ("content", c)]]
          | None => Raise (subscript_error last)
          end
      | _ => Raise (subscript_error last)
      end
  end.

End Echo.

(* ------------------------------------------------------------------------- *)
(** ** The scoped resource of [test_retry_with_async_context] *)

Module AsyncResource.

Section Use.
Context {B A : Type}.
(** [resource.operation()], on the rest of the program state. *)
Variable operation : B -> outcome A * B.

(** [__aexit__] sets [closed = True] on the resource just entered. *)
Definition aexit (rs : list bool) : list bool := (removelast rs ++ [true])%list.

(** [async with AsyncResource() as resource: return await resource.operation()]:
    the [closed] flags of every [AsyncResource] made so far, oldest first. *)
Definition use_resource (st : list bool * B) : outcome A * (list bool * B) :=
  let (rs, b) := st in
  let rs1 := (rs ++ [false])%list in
  let (o, b') := operation b in
  (o, (aexit rs1, b')).
End Use.

End AsyncResource.

(* ========================================================================= *)
(** * Properties *)

(* ------------------------------------------------------------------------- *)
(** ** Retry Policy Engine *)

Section RetryFacts.
Context {St A : Type}.

(** Induction principle of the retry loop: [P] holds on every state reached
    after a failed attempt, [Q] on the value and state of a success. *)
Lemma retry_loop_inv (p : Retry.policy) (op : St -> outcome A * St)
    (P : St -> Prop) (Q : A -> St -> Prop) :
  (forall s, P s -> match op s with
                    | (Ok a, s') => Q a s'
                    | (Raise _, s') => P s'
                    end) ->
  forall fuel attempt s, P s ->
    match Retry.run_outcome (Retry.retry_loop p op fuel attempt s) with
    | Ok a => Q a (Retry.run_state (Retry.retry_loop p op fuel attempt s))
    | Raise _ => P (Retry.run_state (Retry.retry_loop p op fuel attempt s))
    end.
Proof.
  intros Hop fuel. induction fuel as [|f IH]; intros attempt s Hs; simpl;
    specialize (Hop s Hs); destruct (op s) as [[a|e] s']; simpl; auto.
  - destruct (_ && _); simpl; auto.
  - destruct (_ && _); simpl; auto. apply IH. exact Hop.
Qed.

End RetryFacts.

(** ** C1 *)
(** Claim C1: under a policy with [max_attempts = 2], an operation that
    raises the same transient error [e] on every attempt is invoked exactly
    twice and the caller sees [e] itself re-raised: same class, same
    message, no wrapper. *)
Theorem retry_exhaustion_reraises_original {St A : Type}
    (op : St -> outcome A * St) (e : exn) (min_wait max_wait : Z) (s0 : St) :
  Retry.is_retryable_error e = true ->
  (forall s, fst (op s) = Raise e) ->
  let r := Retry.execute_with_retry (Retry.mk_policy 2 min_wait max_wait) op s0 in
  Retry.run_outcome r = Raise e /\ Retry.run_calls r = 2 /\
  (forall e', Retry.run_outcome r = Raise e' ->
              exn_kind e' = exn_kind e /\ exn_msg e' = exn_msg e).
Proof.
  intros Hr Hfail. unfold Retry.execute_with_retry. simpl.
  destruct (op s0) as [o1 s1] eqn:E1.
  pose proof (Hfail s0) as H1. rewrite E1 in H1. simpl in H1. subst o1.
  rewrite Hr. simpl.
  destruct (op s1) as [o2 s2] eqn:E2.
  pose proof (Hfail s1) as H2. rewrite E2 in H2. simpl in H2. subst o2.
  rewrite Hr. simpl.
  split; [reflexivity | split; [reflexivity |]].
  intros e' He'. inversion He'. auto.
Qed.

Lemma retry_exhaustion_reraises_original_witness :
  let e := mk_exn ConnectionError "Permanent error" in
  (Retry.is_retryable_error e = true /\
   (forall s : nat, fst ((fun c : nat => (@Raise string e, S c)) s) = Raise e)) /\
  (let r := Retry.execute_with_retry (Retry.mk_policy 2 100 200)
              (fun c : nat => (@Raise string e, S c)) 0 in
   Retry.run_outcome r = Raise e /\ Retry.run_calls r = 2 /\
   (forall e', Retry.run_outcome r = Raise e' ->
               exn_kind e' = exn_kind e /\ exn_msg e' = exn_msg e)).
Proof.
  intro e. split.
  - split; [reflexivity | intro s; reflexivity].
  - apply (retry_exhaustion_reraises_original (fun c : nat => (@Raise string e, S c)) e 100 200 0).
    + reflexivity.
    + intro s; reflexivity.
Defined.

(** ** C6 *)
(** Claim C6: under a policy with [max_attempts = 3], an operation that
    raises transient errors on attempts 1 and 2 and returns [v] on attempt
    3 is invoked exactly 3 times and the caller receives [v] as a plain
    return value; the retries only show in the waits (the log). *)
Theorem retry_success_after_two_failures {St A : Type}
    (op : St -> outcome A * St) (min_wait max_wait : Z)
    (s0 s1 s2 s3 : St) (e1 e2 : exn) (v : A) :
  Retry.is_retryable_error e1 = true -> Retry.is_retryable_error e2 = true ->
  op s0 = (Raise e1, s1) -> op s1 = (Raise e2, s2) -> op s2 = (Ok v, s3) ->
  let p := Retry.mk_policy 3 min_wait max_wait in
  Retry.execute_with_retry p op s0 =
  Retry.mk_run (Ok v) s3 3 [Retry.backoff p 1; Retry.backoff p 2].
Proof.
  intros H1 H2 E0 E1 E2. unfold Retry.execute_with_retry. simpl.
  rewrite E0, H1. simpl. rewrite E1, H2. simpl. rewrite E2. reflexivity.
Qed.

Lemma retry_success_after_two_failures_witness :
  let e := mk_exn ConnectionError "Temporary error" in
  (Retry.is_retryable_error e = true /\ flaky_func 3 0 = (Raise e, 1) /\
   flaky_func 3 1 = (Raise e, 2) /\ flaky_func 3 2 = (Ok "success", 3)) /\
  Retry.execute_with_retry (Retry.mk_policy 3 100 200) (flaky_func 3) 0 =
  Retry.mk_run (Ok "success") 3 3
    [Retry.backoff (Retry.mk_policy 3 100 200) 1; Retry.backoff (Retry.mk_policy 3 100 200) 2].
Proof.
  intro e. split.
  - repeat split; reflexivity.
  - apply (retry_success_after_two_failures (flaky_func 3) 100 200 0 1 2 3 e e "success");
      reflexivity.
Defined.

(** ** C10 *)
(** Claim C10: [is_retryable_error] holds exactly of the instances of
    [ConnectionError], [TimeoutError] and [asyncio.TimeoutError] (so of
    every instance of these three, subclasses included), and this
    predicate is what decides whether the engine re-attempts: with at
    least 2 attempts allowed, an operation that first raises [e] and then
    succeeds returns its value iff [e] is retryable. *)
Theorem is_retryable_error_decides_retry :
  (forall e, Retry.is_retryable_error e = true <->
             isinstance e ConnectionError = true \/ isinstance e TimeoutError = true
             \/ isinstance e AsyncioTimeoutError = true) /\
  (forall msg, Retry.is_retryable_error (mk_exn ConnectionError msg) = true /\
               Retry.is_retryable_error (mk_exn TimeoutError msg) = true /\
               Retry.is_retryable_error (mk_exn AsyncioTimeoutError msg) = true) /\
  (forall (St A : Type) (p : Retry.policy) (op : St -> outcome A * St)
          (s s1 s2 : St) (e : exn) (v : A),
     2 <= Retry.max_attempts p -> op s = (Raise e, s1) -> op s1 = (Ok v, s2) ->
     (Retry.run_outcome (Retry.execute_with_retry p op s) = Ok v <->
      Retry.is_retryable_error e = true)).
Proof.
  split; [|split].
  - intro e. unfold Retry.is_retryable_error.
    rewrite !Bool.orb_true_iff. tauto.
  - intro msg. repeat split; reflexivity.
  - intros St A p op s s1 s2 e v Hp E0 E1.
    unfold Retry.execute_with_retry.
    destruct (Retry.max_attempts p) as [|[|n]] eqn:Hm; [lia | lia |].
    simpl. rewrite E0.
    destruct (Retry.is_retryable_error e) eqn:Hr; simpl.
    + rewrite Hm. simpl. rewrite E1. simpl. tauto.
    + split; intro H; discriminate H.
Qed.

Lemma is_retryable_error_decides_retry_witness :
  let e := mk_exn ConnectionError "Temporary error" in
  (2 <= Retry.max_attempts (Retry.mk_policy 3 100 200) /\
   flaky_func 2 0 = (Raise e, 1) /\ flaky_func 2 1 = (Ok "success", 2)) /\
  (Retry.run_outcome (Retry.execute_with_retry (Retry.mk_policy 3 100 200) (flaky_func 2) 0)
     = Ok "success" <-> Retry.is_retryable_error e = true).
Proof.
  intro e. split.
  - split; [simpl; lia | split; reflexivity].
  - destruct is_retryable_error_decides_retry as [_ [_ H]].
    apply (H nat string (Retry.mk_policy 3 100 200) (flaky_func 2) 0 1 2 e "success").
    + simpl; lia.
    + reflexivity.
    + reflexivity.
Defined.

(* ------------------------------------------------------------------------- *)
(** ** Serialization Codec *)

Module CodecFacts.
Import Codec.

(** Induction over values with the hypotheses on the nested lists. *)
Section JsonInd.
Variable P : json -> Prop.
Hypothesis HNull : P JNull.
Hypothesis HBool : forall b, P (JBool b).
Hypothesis HNum : forall z, P (JNum z).
Hypothesis HStr : forall s, P (JStr s).
Hypothesis HUuid : forall u, P (JUuid u).
Hypothesis HList : forall l, Forall P l -> P (JList l).
Hypothesis HDict : forall kvs, Forall (fun kv => P (snd kv)) kvs -> P (JDict kvs).

Fixpoint json_ind_nested (v : json) : P v :=
  match v with
  | JNull => HNull
  | JBool b => HBool b
  | JNum z => HNum z
  | JStr s => HStr s
  | JUuid u => HUuid u
  | JList l =>
      HList l ((fix go (l : list json) : Forall P l :=
                  match l with
                  | [] => Forall_nil _
                  | x :: r => Forall_cons _ (json_ind_nested x) (go r)
                  end) l)
  | JDict kvs =>
      HDict kvs ((fix go (kvs : list (string * json)) :
                    Forall (fun kv => P (snd kv)) kvs :=
                  match kvs with
                  | [] => Forall_nil _
                  | kv :: r => Forall_cons _ (json_ind_nested (snd kv)) (go r)
                  end) kvs)
  end.
End JsonInd.

Lemma dict_get_map_values (f : json -> json) k kvs :
  dict_get k (map (fun kv => (fst kv, f (snd kv))) kvs) = option_map f (dict_get k kvs).
Proof.
  induction kvs as [|[k' x] rest IH]; simpl; [reflexivity|].
  destruct (String.eqb k k'); [reflexivity | exact IH].
Qed.

(** Serialization commutes with navigation: what sits at a path of the
    output is the serialization of what sits there in the input. *)
Lemma at_path_serialize v p :
  at_path (serialize_for_jsonb v) p = option_map serialize_for_jsonb (at_path v p).
Proof.
  revert v. induction p as [|[k|i] p IH]; intro v; [reflexivity| |].
  - destruct v; simpl; try reflexivity.
    rewrite dict_get_map_values. destruct (dict_get k kvs); simpl; [apply IH | reflexivity].
  - destruct v; simpl; try reflexivity.
    rewrite nth_error_map. destruct (nth_error l i); simpl; [apply IH | reflexivity].
Qed.

Lemma serialize_no_raw_uuid v : has_raw_uuid (serialize_for_jsonb v) = false.
Proof.
  induction v using json_ind_nested; simpl; try reflexivity.
  - induction H as [|x l Hx _ IHl]; simpl; [reflexivity|].
    rewrite Hx. exact IHl.
  - induction H as [|kv l Hx _ IHl]; simpl; [reflexivity|].
    rewrite Hx. exact IHl.
Qed.

Lemma serialize_primitive v : is_primitive v = true -> serialize_for_jsonb v = v.
Proof. destruct v; simpl; congruence. Qed.

End CodecFacts.

(** ** C2 *)
(** Claim C2: [_serialize_for_jsonb] is a total function that keeps the
    shape of its input: at every path (dict keys and list indices, any
    depth) the output has a value exactly where the input has one, a UUID
    [u] there becomes the string [str(u)], a primitive stays as it is, a
    dict keeps its keys in order and a list its length; no raw UUID is left
    anywhere; empty dicts and lists are returned as they are. *)
Theorem serialize_for_jsonb_replaces_uuids :
  forall v : Codec.json,
    Codec.has_raw_uuid (Codec.serialize_for_jsonb v) = false /\
    (forall p, Codec.at_path v p = None <->
               Codec.at_path (Codec.serialize_for_jsonb v) p = None) /\
    (forall p u, Codec.at_path v p = Some (Codec.JUuid u) ->
       Codec.at_path (Codec.serialize_for_jsonb v) p = Some (Codec.JStr (Codec.uuid_str u))) /\
    (forall p w, Codec.at_path v p = Some w -> Codec.is_primitive w = true ->
       Codec.at_path (Codec.serialize_for_jsonb v) p = Some w) /\
    (forall p l, Codec.at_path v p = Some (Codec.JList l) ->
       exists l', Codec.at_path (Codec.serialize_for_jsonb v) p = Some (Codec.JList l') /\
                  List.length l' = List.length l) /\
    (forall p kvs, Codec.at_path v p = Some (Codec.JDict kvs) ->
       exists kvs', Codec.at_path (Codec.serialize_for_jsonb v) p = Some (Codec.JDict kvs') /\
                    map fst kvs' = map fst kvs) /\
    Codec.serialize_for_jsonb (Codec.JDict []) = Codec.JDict [] /\
    Codec.serialize_for_jsonb (Codec.JList []) = Codec.JList [].
Proof.
  intro v.
  split; [apply CodecFacts.serialize_no_raw_uuid|].
  split; [|split; [|split; [|split; [|split; [|split]]]]];
    intros; try rewrite CodecFacts.at_path_serialize; try reflexivity.
  - destruct (Codec.at_path v p); simpl; split; congruence.
  - rewrite H. reflexivity.
  - rewrite H. simpl. rewrite CodecFacts.serialize_primitive by exact H0. reflexivity.
  - rewrite H. simpl. eexists. split; [reflexivity|]. apply length_map.
  - rewrite H. simpl. eexists. split; [reflexivity|].
    rewrite map_map. simpl. reflexivity.
Qed.

(* ------------------------------------------------------------------------- *)
(** ** Connection Manager *)

Module UrlFacts.

Lemma prefix_app (s r : string) : String.prefix s (s ++ r) = true.
Proof.
  induction s as [|c s IH]; simpl; [destruct r; reflexivity|].
  destruct (Ascii.ascii_dec c c) as [_|n]; [exact IH | exfalso; apply n; reflexivity].
Qed.

Lemma substring_0_all (s : string) (m : nat) :
  String.length s <= m -> substring 0 m s = s.
Proof.
  revert m. induction s as [|c s IH]; intros m Hm; destruct m; simpl in *;
    try reflexivity; try lia.
  rewrite IH by lia. reflexivity.
Qed.

Lemma substring_skip (s r : string) (m : nat) :
  String.length r <= m -> substring (String.length s) m (s ++ r) = r.
Proof.
  induction s as [|c s IH]; intro Hm; simpl.
  - apply substring_0_all. exact Hm.
  - apply IH. exact Hm.
Qed.

Lemma driver_not_generic (rest : string) :
  String.prefix Storage.driver_scheme (Storage.generic_scheme ++ rest) = false.
Proof. reflexivity. Qed.

Lemma normalize_generic (rest : string) :
  Storage.normalize_database_url (Storage.generic_scheme ++ rest) = Storage.driver_scheme ++ rest.
Proof.
  unfold Storage.normalize_database_url.
  rewrite driver_not_generic, prefix_app.
  f_equal. apply substring_skip.
  unfold Storage.generic_scheme. simpl. lia.
Qed.

Lemma normalize_driver (rest : string) :
  Storage.normalize_database_url (Storage.driver_scheme ++ rest) = Storage.driver_scheme ++ rest.
Proof.
  unfold Storage.normalize_database_url. rewrite prefix_app. reflexivity.
Qed.

End UrlFacts.

(** ** C4 *)
(** Claim C4: URL normalization is exact: an address with neither the
    driver-qualified scheme [postgresql+asyncpg://] nor the generic scheme
    [postgresql://] in front gets the driver-qualified scheme prepended; on
    [postgresql://rest] only the scheme is rewritten, giving
    [postgresql+asyncpg://rest] (no double prefix); an address already
    carrying the driver-qualified scheme is unchanged.  Normalizing twice is
    normalizing once. *)
Theorem normalize_database_url_exact :
  (forall url, String.prefix Storage.driver_scheme url = false ->
               String.prefix Storage.generic_scheme url = false ->
               Storage.normalize_database_url url = Storage.driver_scheme ++ url) /\
  (forall rest, Storage.normalize_database_url ("postgresql://" ++ rest) =
                "postgresql+asyncpg://" ++ rest) /\
  (forall rest, Storage.normalize_database_url ("postgresql+asyncpg://" ++ rest) =
                "postgresql+asyncpg://" ++ rest) /\
  (forall url, Storage.normalize_database_url (Storage.normalize_database_url url) =
               Storage.normalize_database_url url).
Proof.
  split; [|split; [|split]].
  - intros url H1 H2. unfold Storage.normalize_database_url. rewrite H1, H2. reflexivity.
  - exact UrlFacts.normalize_generic.
  - exact UrlFacts.normalize_driver.
  - intro url.
    destruct (String.prefix Storage.driver_scheme url) eqn:H1.
    + unfold Storage.normalize_database_url. rewrite !H1. reflexivity.
    + assert (E : exists rest, Storage.normalize_database_url url =
                               Storage.driver_scheme ++ rest).
      { unfold Storage.normalize_database_url. rewrite H1.
        destruct (String.prefix Storage.generic_scheme url); eexists; reflexivity. }
      destruct E as [rest E]. rewrite E. apply UrlFacts.normalize_driver.
Qed.

Lemma normalize_database_url_exact_witness :
  (String.prefix Storage.driver_scheme "localhost:5432/db" = false /\
   String.prefix Storage.generic_scheme "localhost:5432/db" = false) /\
  Storage.normalize_database_url "localhost:5432/db" =
    Storage.driver_scheme ++ "localhost:5432/db".
Proof.
  split; [split; reflexivity|].
  destruct normalize_database_url_exact as [H _].
  apply H; reflexivity.
Defined.

(* ------------------------------------------------------------------------- *)
(** ** Guards of the repository calls *)

(** ** C3 *)
(** Claim C3, as stated: on a never-connected instance every data call
    fails with the not-initialized error.  Not so for [load_task] with a
    malformed id: the type guard runs first and raises [TypeError]
    ([test_load_task_invalid_type] on an unconnected instance). *)
Lemma not_initialized_guard_counterexample :
  fst (Storage.load_task (Storage.PStr "not-a-uuid")
         (Storage.PostgresStorage "localhost:5432/db")) =
    Raise (mk_exn TypeError "task_id must be UUID, got str") /\
  fst (Storage.load_task (Storage.PStr "not-a-uuid")
         (Storage.PostgresStorage "localhost:5432/db")) <> Raise Storage.not_initialized.
Proof.
  split; [reflexivity|]. simpl. discriminate.
Qed.

(** Claim C3, amended: an instance is disconnected before [connect()] and
    after [disconnect()]; on a disconnected instance, every data call with
    a well-formed UUID argument raises the not-initialized [RuntimeError]
    (not a [ConnectionError]) and leaves the instance and the store
    untouched (no round-trip logged); a malformed argument gets the
    [TypeError] of the type guard instead, also without I/O. *)
Theorem not_initialized_guard :
  (forall url, Storage._engine (Storage.PostgresStorage url) = None) /\
  (forall s, Storage._engine (snd (Storage.disconnect s)) = None) /\
  exn_kind Storage.not_initialized = RuntimeError /\
  (forall s, Storage._engine s = None ->
   (forall u, Storage.load_task (Storage.PUuid u) s = (Raise Storage.not_initialized, s)) /\
   (forall u msg, Storage.submit_task (Storage.PUuid u) msg s = (Raise Storage.not_initialized, s)) /\
   (forall u, Storage.load_context (Storage.PUuid u) s = (Raise Storage.not_initialized, s)) /\
   (forall u st, Storage.update_task_state (Storage.PUuid u) st s =
                 (Raise Storage.not_initialized, s)) /\
   (forall v, (forall u, v <> Storage.PUuid u) ->
      (exists e, Storage.load_task v s = (Raise e, s) /\ exn_kind e = TypeError) /\
      (forall msg, exists e, Storage.submit_task v msg s = (Raise e, s) /\ exn_kind e = TypeError) /\
      (exists e, Storage.load_context v s = (Raise e, s) /\ exn_kind e = TypeError) /\
      (forall st, exists e, Storage.update_task_state v st s = (Raise e, s) /\
                            exn_kind e = TypeError))).
Proof.
  split; [reflexivity|]. split.
  { intro s. unfold Storage.disconnect. destruct (Storage._engine s); reflexivity. }
  split; [reflexivity|].
  intros s H.
  split; [|split; [|split; [|split]]]; intros;
    unfold Storage.load_task, Storage.submit_task, Storage.load_context,
      Storage.update_task_state, Storage.bind, Storage.type_guard, Storage.ret,
      Storage.raise, Storage._ensure_connected;
    try (rewrite H; reflexivity).
  destruct v as [u|str|z|]; [exfalso; eapply H0; reflexivity| | |];
    repeat split; intros; eexists; split; reflexivity.
Qed.

Lemma not_initialized_guard_witness :
  Storage._engine (Storage.PostgresStorage "localhost:5432/db") = None /\
  Storage.load_context (Storage.PUuid 42%N) (Storage.PostgresStorage "localhost:5432/db") =
    (Raise Storage.not_initialized, Storage.PostgresStorage "localhost:5432/db").
Proof.
  split; [reflexivity|].
  destruct not_initialized_guard as [_ [_ [_ H]]].
  apply (H (Storage.PostgresStorage "localhost:5432/db")). reflexivity.
Defined.

(** ** C5 *)
(** Claim C5: [submit_task] with a [context_id] that is not a UUID, and
    [load_task]/[load_context] with an id that is not a UUID, raise
    [TypeError] on any instance, connected or not, before any round-trip
    and before the retry engine is entered (the instance and the store are
    returned untouched: no attempt is made).  A [TypeError] is not
    retryable either: the engine would run such an operation only once. *)
Theorem type_guard_before_io :
  (forall v s, (forall u, v <> Storage.PUuid u) ->
     Storage.load_task v s =
       (Raise (mk_exn TypeError ("task_id must be UUID, got " ++ Storage.py_type_name v)), s) /\
     Storage.load_context v s =
       (Raise (mk_exn TypeError ("context_id must be UUID, got " ++ Storage.py_type_name v)), s) /\
     (forall msg, Storage.submit_task v msg s =
       (Raise (mk_exn TypeError ("context_id must be UUID, got " ++ Storage.py_type_name v)), s))) /\
  (forall msg, Retry.is_retryable_error (mk_exn TypeError msg) = false) /\
  (forall (St A : Type) (p : Retry.policy) (op : St -> outcome A * St) (s : St) (e : exn),
     exn_kind e = TypeError -> fst (op s) = Raise e ->
     Retry.run_outcome (Retry.execute_with_retry p op s) = Raise e /\
     Retry.run_calls (Retry.execute_with_retry p op s) = 1).
Proof.
  split; [|split].
  - intros v s Hv.
    destruct v as [u|str|z|]; [exfalso; eapply Hv; reflexivity| | |];
      repeat split.
  - intro msg. reflexivity.
  - intros St A p op s e Hk Hop. unfold Retry.execute_with_retry.
    destruct (Retry.max_attempts p) as [|n]; simpl;
      destruct (op s) as [o s'] eqn:E; simpl in Hop; subst o;
      unfold Retry.is_retryable_error, isinstance; rewrite Hk; simpl; auto.
Qed.

Lemma type_guard_before_io_witness :
  let s := snd (Storage.connect true (Storage.PostgresStorage "localhost:5432/db")) in
  (forall u, Storage.PStr "not-a-uuid" <> Storage.PUuid u) /\
  Storage.load_task (Storage.PStr "not-a-uuid") s =
    (Raise (mk_exn TypeError "task_id must be UUID, got str"), s).
Proof.
  intro s. split; [intros u H; discriminate H|].
  destruct type_guard_before_io as [H _].
  apply (H (Storage.PStr "not-a-uuid") s). intros u E; discriminate E.
Defined.

(* ------------------------------------------------------------------------- *)
(** ** Row mapping *)

(** ** C8 *)
(** Claim C8: [_row_to_task] copies [id], [context_id] and [kind], nests
    [state] and [state_timestamp] into [status], and gives lists for
    [history] and [artifacts] and a dict for [metadata] even when the
    column is NULL (then empty); a ["submitted"] row with empty or NULL
    collections maps to a submitted task with [[]], [[]] and [{}]. *)
Theorem row_to_task_mapping :
  forall r : Storage.task_row,
    let t := Storage._row_to_task r in
    Storage.task_id t = Storage.row_id r /\
    Storage.task_context_id t = Storage.row_context_id r /\
    Storage.task_kind t = Storage.row_kind r /\
    Storage.task_status_ t =
      Storage.mk_status (Storage.row_state r) (Storage.row_state_timestamp r) /\
    (Storage.row_history r = None -> Storage.task_history t = []) /\
    (forall l, Storage.row_history r = Some l -> Storage.task_history t = l) /\
    (Storage.row_artifacts r = None -> Storage.task_artifacts t = []) /\
    (forall l, Storage.row_artifacts r = Some l -> Storage.task_artifacts t = l) /\
    (Storage.row_metadata r = None -> Storage.task_metadata t = []) /\
    (forall m, Storage.row_metadata r = Some m -> Storage.task_metadata t = m) /\
    (Storage.row_state r = "submitted" ->
     (Storage.row_history r = Some [] \/ Storage.row_history r = None) ->
     (Storage.row_artifacts r = Some [] \/ Storage.row_artifacts r = None) ->
     (Storage.row_metadata r = Some [] \/ Storage.row_metadata r = None) ->
     Storage.status_state (Storage.task_status_ t) = "submitted" /\
     Storage.task_history t = [] /\ Storage.task_artifacts t = [] /\
     Storage.task_metadata t = []).
Proof.
  intros [id cid kind st ts h a m]; simpl.
  repeat split; intros; subst; try reflexivity;
    repeat match goal with
           | H : _ \/ _ |- _ => destruct H
           | H : Some _ = Some _ |- _ => injection H as <-
           | H : _ = _ |- _ => subst
           end; try reflexivity; try discriminate.
Qed.

Lemma row_to_task_mapping_witness :
  let r := Storage.mk_row 11%N 22%N "task" "submitted" 1700000000000%Z
             (Some []) (Some []) (Some []) in
  (Storage.row_state r = "submitted" /\ Storage.row_history r = Some [] /\
   Storage.row_artifacts r = Some [] /\ Storage.row_metadata r = Some []) /\
  (Storage.status_state (Storage.task_status_ (Storage._row_to_task r)) = "submitted" /\
   Storage.task_history (Storage._row_to_task r) = [] /\
   Storage.task_artifacts (Storage._row_to_task r) = [] /\
   Storage.task_metadata (Storage._row_to_task r) = []).
Proof.
  intro r. split; [repeat split|].
  destruct (row_to_task_mapping r) as [_ [_ [_ [_ [_ [_ [_ [_ [_ [_ H]]]]]]]]]].
  apply H; auto.
Defined.

(* ------------------------------------------------------------------------- *)
(** ** Disconnect *)

(** ** C9 *)
(** Claim C9: [disconnect()] never raises, always leaves engine and
    session factory cleared, is a no-op on an instance that holds neither
    (never connected or already disconnected), and running it twice has the
    effect of running it once. *)
Theorem disconnect_idempotent :
  (forall s, fst (Storage.disconnect s) = Ok tt /\
             Storage._engine (snd (Storage.disconnect s)) = None /\
             Storage._session_factory (snd (Storage.disconnect s)) = None /\
             Storage.disconnect (snd (Storage.disconnect s)) =
               (Ok tt, snd (Storage.disconnect s))) /\
  (forall s, Storage._engine s = None -> Storage._session_factory s = None ->
             Storage.disconnect s = (Ok tt, s)) /\
  (forall url, Storage.disconnect (Storage.PostgresStorage url) =
               (Ok tt, Storage.PostgresStorage url)).
Proof.
  assert (Hnone : forall s, Storage._engine s = None -> Storage._session_factory s = None ->
                            Storage.disconnect s = (Ok tt, s)).
  { intros [url e f ts cs io fs n c] He Hf; simpl in *; subst. reflexivity. }
  split; [|split; [exact Hnone|]].
  - intros [url [e|] f ts cs io fs n c]; repeat split.
  - intro url. apply Hnone; reflexivity.
Qed.

Lemma disconnect_idempotent_witness :
  let s := snd (Storage.disconnect (snd (Storage.connect true
             (Storage.PostgresStorage "localhost:5432/db")))) in
  (Storage._engine s = None /\ Storage._session_factory s = None) /\
  Storage.disconnect s = (Ok tt, s).
Proof.
  intro s. split; [split; reflexivity|].
  destruct disconnect_idempotent as [_ [H _]]. apply H; reflexivity.
Defined.

(* ------------------------------------------------------------------------- *)
(** ** Task state machine *)

Module TaskFacts.
Import Codec Storage.

(** A storage step that keeps the clock, keeps every stored timestamp at
    or below it, and never lowers the timestamp found for a task id. *)
Definition grows (s s' : storage) : Prop :=
  forall u ts, ts_of u s = Some ts -> exists ts', ts_of u s' = Some ts' /\ (ts <= ts')%Z.

Definition Rel (s s' : storage) : Prop :=
  timestamps_bounded s -> clock s' = clock s /\ timestamps_bounded s' /\ grows s s'.

Definition Tame {A} (m : M A) : Prop := forall s, Rel s (snd (m s)).

Lemma rel_refl s : Rel s s.
Proof. intro Hb. split; [reflexivity | split; [exact Hb|]]. intros u ts H. exists ts; split; [exact H | lia]. Qed.

Lemma rel_trans a b c : Rel a b -> Rel b c -> Rel a c.
Proof.
  intros Hab Hbc Ha. destruct (Hab Ha) as [C1 [Hb G1]]. destruct (Hbc Hb) as [C2 [Hc G2]].
  split; [congruence | split; [exact Hc|]].
  intros u ts H. destruct (G1 u ts H) as [t1 [H1 L1]]. destruct (G2 u t1 H1) as [t2 [H2 L2]].
  exists t2. split; [exact H2 | lia].
Qed.

Lemma rel_same s s' : tasks s' = tasks s -> clock s' = clock s -> Rel s s'.
Proof.
  intros Ht Hc Hb. split; [exact Hc|]. split.
  - intros r Hr. rewrite Hc. apply Hb. rewrite <- Ht. exact Hr.
  - intros u ts H. exists ts. unfold ts_of in *. rewrite Ht. split; [exact H | lia].
Qed.

Lemma find_row_in u rows r : find_row u rows = Some r -> In r rows.
Proof.
  induction rows as [|x rest IH]; simpl; [discriminate|].
  destruct (N.eqb (row_id x) u); [intro H; injection H as <-; left; reflexivity|].
  intro H. right. apply IH. exact H.
Qed.

Lemma find_row_id u rows r : find_row u rows = Some r -> row_id r = u.
Proof.
  induction rows as [|x rest IH]; simpl; [discriminate|].
  destruct (N.eqb (row_id x) u) eqn:E; [intro H; injection H as <-; apply N.eqb_eq; exact E|].
  exact IH.
Qed.

Lemma find_row_map (f : task_row -> task_row) u rows :
  (forall x, row_id (f x) = row_id x) ->
  find_row u (map f rows) = option_map f (find_row u rows).
Proof.
  intro Hf. induction rows as [|x rest IH]; simpl; [reflexivity|].
  rewrite Hf. destruct (N.eqb (row_id x) u); [reflexivity | exact IH].
Qed.

Lemma tame_ret {A} (a : A) : Tame (ret a).
Proof. intro s. apply rel_refl. Qed.

Lemma tame_raise {A} (e : exn) : Tame (@raise A e).
Proof. intro s. apply rel_refl. Qed.

Lemma tame_bind {A B} (m : M A) (k : A -> M B) :
  Tame m -> (forall a, Tame (k a)) -> Tame (bind m k).
Proof.
  intros Hm Hk s. unfold bind. specialize (Hm s).
  destruct (m s) as [[a|e] s1]; simpl in *; [|exact Hm].
  eapply rel_trans; [exact Hm | apply Hk].
Qed.

Lemma tame_read {A} (f : storage -> outcome A) : Tame (fun s => (f s, s)).
Proof. intro s. apply rel_refl. Qed.

Lemma tame_round_trip {A} ev (k : M A) : Tame k -> Tame (round_trip ev k).
Proof.
  intros Hk s. unfold round_trip. simpl.
  destruct (faults s) as [|f fs].
  - eapply rel_trans; [|apply Hk]. apply rel_same; reflexivity.
  - apply rel_same; reflexivity.
Qed.

(** Invariant of [with_retry]: [P] after every failed attempt, [Q] after
    the successful one. *)
Lemma with_retry_inv {A} (m : M A) (P : storage -> Prop) (Q : A -> storage -> Prop) s :
  P s ->
  (forall s1, P s1 -> match m s1 with
                      | (Ok a, s2) => Q a s2
                      | (Raise _, s2) => P s2
                      end) ->
  match with_retry m s with
  | (Ok a, s2) => Q a s2
  | (Raise _, s2) => P s2
  end.
Proof.
  intros Hs Hm. unfold with_retry, Retry.execute_with_retry.
  pose proof (retry_loop_inv Retry.storage_policy m P Q Hm
                (Retry.max_attempts Retry.storage_policy) 1 s Hs) as H.
  destruct (Retry.run_outcome _); exact H.
Qed.

Lemma tame_with_retry {A} (m : M A) : Tame m -> Tame (with_retry m).
Proof.
  intros Hm s.
  pose proof (with_retry_inv m (Rel s) (fun _ => Rel s) s (rel_refl s)) as H.
  assert (H' : forall s1, Rel s s1 -> match m s1 with
                                      | (Ok _, s2) => Rel s s2
                                      | (Raise _, s2) => Rel s s2
                                      end).
  { intros s1 H1. specialize (Hm s1).
    destruct (m s1) as [[a|e] s2]; eapply rel_trans; eauto. }
  specialize (H H'). destruct (with_retry m s) as [[a|e] s2]; exact H.
Qed.

Lemma tame_type_guard name v : Tame (type_guard name v).
Proof. destruct v; [apply tame_ret | apply tame_raise | apply tame_raise | apply tame_raise]. Qed.

Lemma tame_ensure_connected : Tame _ensure_connected.
Proof.
  intro s. unfold _ensure_connected.
  destruct (_engine s), (_session_factory s); apply rel_refl.
Qed.

Lemma tame_insert (row : task_row) cs n s :
  row_state_timestamp row = clock s ->
  Rel s (set_tables (row :: tasks s) cs n s).
Proof.
  intros Hts Hb. split; [reflexivity|]. split.
  - intros x [<-|Hx]; simpl; [lia | apply Hb; exact Hx].
  - intros u ts H. unfold ts_of in *. simpl.
    destruct (N.eqb (row_id row) u).
    + exists (clock s). split; [simpl; congruence|].
      destruct (find_row u (tasks s)) as [x|] eqn:E; [|discriminate].
      injection H as <-. apply Hb. eapply find_row_in. exact E.
    + exists ts. split; [exact H | lia].
Qed.

Lemma tame_replace (r' : task_row) s :
  row_state_timestamp r' = clock s ->
  Rel s (set_tables (replace_row r' (tasks s)) (contexts s) (next_uuid s) s).
Proof.
  intros Hts Hb. unfold replace_row.
  set (f := fun r => if N.eqb (row_id r) (row_id r') then r' else r).
  assert (Hid : forall x, row_id (f x) = row_id x).
  { intro x. unfold f. destruct (N.eqb (row_id x) (row_id r')) eqn:E; [|reflexivity].
    symmetry. apply N.eqb_eq. exact E. }
  assert (Hle : forall x, In x (tasks s) ->
                 (row_state_timestamp x <= row_state_timestamp (f x) <= clock s)%Z).
  { intros x Hx. pose proof (Hb x Hx). unfold f.
    destruct (N.eqb (row_id x) (row_id r')); lia. }
  split; [reflexivity|]. split.
  - intros x Hx. simpl in Hx. apply in_map_iff in Hx as [y [<- Hy]].
    simpl. pose proof (Hle y Hy). lia.
  - intros u ts H. unfold ts_of in *. simpl. rewrite find_row_map by exact Hid.
    destruct (find_row u (tasks s)) as [x|] eqn:E; [|discriminate].
    simpl in *. injection H as <-. eexists. split; [reflexivity|].
    pose proof (Hle x (find_row_in _ _ _ E)). lia.
Qed.

Lemma tame_submit_tx c message : Tame (_submit_tx c message).
Proof.
  intro s0. unfold _submit_tx.
  apply (tame_round_trip (IoInsertTask (next_uuid s0))).
  intro s. simpl. apply tame_insert. reflexivity.
Qed.

Lemma update_task_state_unfold v st :
  update_task_state v st =
  bind (type_guard "task_id" v) (fun u =>
    bind _ensure_connected (fun _ => with_retry (round_trip (IoUpdateTask u) (_update_state_tx u st)))).
Proof. reflexivity. Qed.

Lemma submit_task_unfold v m :
  submit_task v m =
  bind (type_guard "context_id" v) (fun c =>
    bind _ensure_connected (fun _ => with_retry (_submit_tx c m))).
Proof. reflexivity. Qed.

Lemma tame_update_state_tx u st : Tame (_update_state_tx u st).
Proof.
  intro s. unfold _update_state_tx.
  destruct (find_row u (tasks s)) as [r|]; [|apply rel_refl].
  destruct (parse_state (row_state r)) as [cur|]; [|apply rel_refl].
  destruct (legal_transition cur st); [|apply rel_refl].
  apply tame_replace. reflexivity.
Qed.

Lemma tame_exec_call c :
  match c with CClock _ | CFault _ => True | _ => forall s, Rel s (exec_call c s) end.
Proof.
  destruct c; try exact I; intro s; simpl.
  - apply rel_same; destruct reachable; reflexivity.
  - unfold disconnect. destruct (_engine s); apply rel_same; reflexivity.
  - rewrite submit_task_unfold.
    apply tame_bind; [apply tame_type_guard|]. intro a.
    apply tame_bind; [apply tame_ensure_connected|]. intros _.
    apply tame_with_retry, tame_submit_tx.
  - apply tame_bind; [apply tame_type_guard|]. intro a.
    apply tame_bind; [apply tame_ensure_connected|]. intros _.
    apply tame_with_retry, tame_round_trip, tame_read.
  - apply tame_bind; [apply tame_type_guard|]. intro a.
    apply tame_bind; [apply tame_ensure_connected|]. intros _.
    apply tame_with_retry, tame_round_trip, tame_read.
  - rewrite update_task_state_unfold.
    apply tame_bind; [apply tame_type_guard|]. intro a.
    apply tame_bind; [apply tame_ensure_connected|]. intros _.
    apply tame_with_retry, tame_round_trip, tame_update_state_tx.
Qed.

Lemma run_trace_grows cs : forall s,
  clock_monotone (clock s) cs -> timestamps_bounded s -> grows s (run_trace cs s).
Proof.
  induction cs as [|c rest IH]; intros s Hm Hb; simpl.
  - apply (rel_refl s Hb).
  - assert (Hstep : clock_monotone (clock (exec_call c s)) rest /\
                    timestamps_bounded (exec_call c s) /\ grows s (exec_call c s)).
    { pose proof (tame_exec_call c) as Hc.
      destruct c; simpl in Hm;
        try (destruct (Hc s Hb) as [Ec [Hb' G]]; rewrite Ec; auto; fail).
      - destruct Hm as [Hle Hm]. simpl. split; [exact Hm|]. split.
        + intros r Hr. pose proof (Hb r Hr). cbn in *. lia.
        + intros u ts H. exists ts. split; [exact H | lia].
      - simpl. split; [exact Hm|]. split; [exact Hb|].
        intros u ts H. exists ts. split; [exact H | lia]. }
    destruct Hstep as [Hm' [Hb' G]].
    intros u ts H. destruct (G u ts H) as [t1 [H1 L1]].
    destruct (IH _ Hm' Hb' u t1 H1) as [t2 [H2 L2]].
    exists t2. split; [exact H2 | lia].
Qed.

End TaskFacts.

(** ** C7 *)
(** Claim C7: the transitions [update_task_state] accepts are exactly the
    seven edges submitted->working, working->input-required,
    input-required->working, working->completed, working->failed,
    submitted->cancelled, working->cancelled; a call asking for any other
    edge raises and leaves the tasks table as it was; an accepted call
    stores the new state and the current time as [state_timestamp]; and
    along any sequence of calls during which the wall clock does not go
    back, the timestamp of a task never decreases. *)
Theorem update_task_state_transitions :
  (forall a b, Storage.legal_transition a b = true <->
     In (a, b) [(Storage.Submitted, Storage.Working);
                (Storage.Working, Storage.InputRequired);
                (Storage.InputRequired, Storage.Working);
                (Storage.Working, Storage.Completed);
                (Storage.Working, Storage.Failed);
                (Storage.Submitted, Storage.Cancelled);
                (Storage.Working, Storage.Cancelled)]) /\
  (forall s u ns r cur,
     Storage.find_row u (Storage.tasks s) = Some r ->
     Storage.parse_state (Storage.row_state r) = Some cur ->
     Storage.legal_transition cur ns = false ->
     exists e s', Storage.update_task_state (Storage.PUuid u) ns s = (Raise e, s') /\
                  Storage.tasks s' = Storage.tasks s) /\
  (forall s u ns t s',
     Storage.update_task_state (Storage.PUuid u) ns s = (Ok t, s') ->
     exists r cur,
       Storage.find_row u (Storage.tasks s) = Some r /\
       Storage.parse_state (Storage.row_state r) = Some cur /\
       Storage.legal_transition cur ns = true /\
       Storage.task_status_ t = Storage.mk_status (Storage.state_str ns) (Storage.clock s) /\
       option_map Storage.row_state (Storage.find_row u (Storage.tasks s')) =
         Some (Storage.state_str ns) /\
       Storage.ts_of u s' = Some (Storage.clock s)) /\
  (forall cs s, Storage.clock_monotone (Storage.clock s) cs ->
     Storage.timestamps_bounded s ->
     forall u ts, Storage.ts_of u s = Some ts ->
       exists ts', Storage.ts_of u (Storage.run_trace cs s) = Some ts' /\ (ts <= ts')%Z).
Proof.
  split; [|split; [|split]].
  - intros [] []; simpl; split; intro H;
      try discriminate H; try reflexivity;
      repeat (destruct H as [H|H]; [discriminate H|]); try contradiction H;
      tauto.
  - intros s u ns r cur Hr Hcur Hill.
    rewrite TaskFacts.update_task_state_unfold.
    unfold Storage.bind, Storage.type_guard, Storage.ret, Storage._ensure_connected.
    destruct (Storage._engine s), (Storage._session_factory s);
      try (do 2 eexists; split; reflexivity).
    pose proof (TaskFacts.with_retry_inv
                  (Storage.round_trip (Storage.IoUpdateTask u) (Storage._update_state_tx u ns))
                  (fun s1 => Storage.tasks s1 = Storage.tasks s) (fun _ _ => False) s
                  eq_refl) as H.
    destruct (Storage.with_retry _ s) as [[a|e] s2].
    + exfalso. apply H. intros s1 H1.
      unfold Storage.round_trip. simpl. destruct (Storage.faults s1); [|exact H1].
      unfold Storage._update_state_tx. simpl. rewrite H1, Hr, Hcur, Hill. exact H1.
    + exists e, s2. split; [reflexivity|]. apply H. intros s1 H1.
      unfold Storage.round_trip. simpl. destruct (Storage.faults s1); [|exact H1].
      unfold Storage._update_state_tx. simpl. rewrite H1, Hr, Hcur, Hill. exact H1.
  - intros s u ns t s' Hok.
    rewrite TaskFacts.update_task_state_unfold in Hok.
    unfold Storage.bind, Storage.type_guard, Storage.ret, Storage._ensure_connected in Hok.
    destruct (Storage._engine s), (Storage._session_factory s); try discriminate Hok.
    pose proof (TaskFacts.with_retry_inv
                  (Storage.round_trip (Storage.IoUpdateTask u) (Storage._update_state_tx u ns))
                  (fun s1 => Storage.tasks s1 = Storage.tasks s /\
                             Storage.clock s1 = Storage.clock s)
                  (fun t s2 => exists r cur,
                     Storage.find_row u (Storage.tasks s) = Some r /\
                     Storage.parse_state (Storage.row_state r) = Some cur /\
                     Storage.legal_transition cur ns = true /\
                     Storage.task_status_ t =
                       Storage.mk_status (Storage.state_str ns) (Storage.clock s) /\
                     option_map Storage.row_state (Storage.find_row u (Storage.tasks s2)) =
                       Some (Storage.state_str ns) /\
                     Storage.ts_of u s2 = Some (Storage.clock s))
                  s (conj eq_refl eq_refl)) as H.
    rewrite Hok in H. apply H. clear H Hok.
    intros s1 [Ht Hc]. unfold Storage.round_trip. simpl.
    destruct (Storage.faults s1); [|split; assumption].
    unfold Storage._update_state_tx. simpl. rewrite Ht.
    destruct (Storage.find_row u (Storage.tasks s)) as [r|] eqn:Hr; [|split; assumption].
    destruct (Storage.parse_state (Storage.row_state r)) as [cur|] eqn:Hcur;
      [|split; assumption].
    destruct (Storage.legal_transition cur ns) eqn:Hleg; [|split; assumption].
    exists r, cur. split; [reflexivity|]. split; [exact Hcur|]. split; [exact Hleg|].
    pose proof (TaskFacts.find_row_id _ _ _ Hr) as Hid.
    assert (Hfind : Storage.find_row u (Storage.replace_row
              (Storage.mk_row (Storage.row_id r) (Storage.row_context_id r) (Storage.row_kind r)
                 (Storage.state_str ns) (Storage.clock s1) (Storage.row_history r)
                 (Storage.row_artifacts r) (Storage.row_metadata r)) (Storage.tasks s)) =
            Some (Storage.mk_row (Storage.row_id r) (Storage.row_context_id r) (Storage.row_kind r)
                 (Storage.state_str ns) (Storage.clock s1) (Storage.row_history r)
                 (Storage.row_artifacts r) (Storage.row_metadata r))).
    { unfold Storage.replace_row. rewrite TaskFacts.find_row_map.
      - rewrite Hr. simpl. rewrite N.eqb_refl. reflexivity.
      - intro x. simpl. destruct (N.eqb (Storage.row_id x) (Storage.row_id r)) eqn:E;
          [symmetry; apply N.eqb_eq; exact E | reflexivity]. }
    unfold Storage.ts_of. simpl. rewrite Hfind. simpl. rewrite Hc.
    split; [reflexivity | split; reflexivity].
  - intros cs s Hm Hb u ts H. exact (TaskFacts.run_trace_grows cs s Hm Hb u ts H).
Qed.

Lemma update_task_state_transitions_witness :
  let s1 := Storage.run_trace [Storage.CConnect true; Storage.CSubmit (Storage.PUuid 7%N) Codec.JNull]
              (Storage.PostgresStorage "localhost:5432/db") in
  let cs := [Storage.CClock 5%Z; Storage.CUpdate (Storage.PUuid 1%N) Storage.Working;
             Storage.CClock 9%Z; Storage.CUpdate (Storage.PUuid 1%N) Storage.Completed] in
  (Storage.clock_monotone (Storage.clock s1) cs /\ Storage.timestamps_bounded s1 /\
   Storage.ts_of 1%N s1 = Some 0%Z) /\
  (exists ts', Storage.ts_of 1%N (Storage.run_trace cs s1) = Some ts' /\ (0 <= ts')%Z) /\
  (exists e s', Storage.update_task_state (Storage.PUuid 1%N) Storage.Completed s1 = (Raise e, s') /\
                Storage.tasks s' = Storage.tasks s1).
Proof.
  intros s1 cs.
  assert (Hb : Storage.timestamps_bounded s1).
  { intros r Hr. simpl in Hr. destruct Hr as [<-|[]]. simpl. lia. }
  destruct update_task_state_transitions as [_ [Hrej [_ Hmono]]].
  split; [split; [simpl; lia | split; [exact Hb | reflexivity]]|].
  split.
  - apply (Hmono cs s1); [simpl; lia | exact Hb | reflexivity].
  - apply (Hrej s1 1%N Storage.Completed
             (Storage.mk_row 1%N 7%N "task" "submitted" 0%Z (Some [Codec.JNull]) (Some []) (Some []))
             Storage.Submitted); reflexivity.
Defined.

(* ========================================================================= *)
(** * Further properties of the code *)

(* ------------------------------------------------------------------------- *)
(** ** The echo agent *)

(** The reply depends on the last message only, and is one assistant
    message carrying that message's [content] unchanged. *)
Theorem echo_handler_replies_with_last_content :
  (forall (h : list Codec.json) (m : Codec.json),
     Echo.handler (h ++ [m])%list = Echo.handler [m]) /\
  (forall (h : list Codec.json) kvs c,
     Codec.dict_get "content" kvs = Some c ->
     Echo.handler (h ++ [Codec.JDict kvs])%list =
       Ok [Codec.JDict [("role", Codec.JStr "assistant"); ("content", c)]]).
Proof.
  assert (Hlast : forall h m, Echo.handler (h ++ [m])%list = Echo.handler [m]).
  { intros h m. unfold Echo.handler. rewrite rev_app_distr. reflexivity. }
  split; [exact Hlast|].
  intros h kvs c Hc. rewrite Hlast. unfold Echo.handler. simpl. rewrite Hc. reflexivity.
Qed.

Lemma echo_handler_replies_with_last_content_witness :
  let kvs := [("role", Codec.JStr "user"); ("content", Codec.JStr "hello")] in
  Codec.dict_get "content" kvs = Some (Codec.JStr "hello") /\
  Echo.handler ([Codec.JDict [("content", Codec.JStr "earlier")]] ++ [Codec.JDict kvs])%list =
    Ok [Codec.JDict [("role", Codec.JStr "assistant"); ("content", Codec.JStr "hello")]].
Proof.
  intro kvs. split; [reflexivity|].
  destruct echo_handler_replies_with_last_content as [_ H]. apply H. reflexivity.
Defined.

(** The handler fails on an empty conversation with [IndexError], on a
    last message without ["content"] with [KeyError] (whatever earlier
    messages hold), and on a last message that is not a dict with
    [TypeError]. *)
Theorem echo_handler_errors :
  Echo.handler [] = Raise (mk_exn IndexError "list index out of range") /\
  (forall (h : list Codec.json) kvs,
     Codec.dict_get "content" kvs = None ->
     Echo.handler (h ++ [Codec.JDict kvs])%list = Raise (mk_exn KeyError "'content'")) /\
  (forall (h : list Codec.json) v,
     (forall kvs, v <> Codec.JDict kvs) ->
     exists msg, Echo.handler (h ++ [v])%list = Raise (mk_exn TypeError msg)).
Proof.
  split; [reflexivity|]. split.
  - intros h kvs Hn. unfold Echo.handler. rewrite rev_app_distr. simpl. rewrite Hn. reflexivity.
  - intros h v Hv. unfold Echo.handler. rewrite rev_app_distr. simpl.
    destruct v; try (eexists; reflexivity). exfalso. eapply Hv. reflexivity.
Qed.

Lemma echo_handler_errors_witness :
  (Codec.dict_get "content" [("role", Codec.JStr "user")] = None /\
   Echo.handler ([Codec.JDict [("content", Codec.JStr "hi")]] ++
                 [Codec.JDict [("role", Codec.JStr "user")]])%list =
     Raise (mk_exn KeyError "'content'")) /\
  (exists msg, Echo.handler ([] ++ [Codec.JStr "hi"])%list = Raise (mk_exn TypeError msg)).
Proof.
  destruct echo_handler_errors as [_ [H1 H2]]. split.
  - split; [reflexivity|]. apply H1. reflexivity.
  - apply H2. intros kvs E. discriminate E.
Defined.

(** Echoing is stable: appending the agent's reply to the conversation and
    calling the handler again gives the same reply. *)
Theorem echo_handler_reply_stable :
  forall (msgs r : list Codec.json),
    Echo.handler msgs = Ok r -> Echo.handler (msgs ++ r)%list = Ok r.
Proof.
  intros msgs r H. unfold Echo.handler in H.
  destruct (rev msgs) as [|last rest]; [discriminate H|].
  destruct last; try discriminate H.
  destruct (Codec.dict_get "content" kvs) as [c|]; [|discriminate H].
  injection H as <-.
  unfold Echo.handler. rewrite rev_app_distr. reflexivity.
Qed.

Lemma echo_handler_reply_stable_witness :
  let msgs := [Codec.JDict [("role", Codec.JStr "user"); ("content", Codec.JStr "ping")]] in
  Echo.handler msgs = Ok [Codec.JDict [("role", Codec.JStr "assistant"); ("content", Codec.JStr "ping")]] /\
  Echo.handler (msgs ++ [Codec.JDict [("role", Codec.JStr "assistant"); ("content", Codec.JStr "ping")]])%list =
    Ok [Codec.JDict [("role", Codec.JStr "assistant"); ("content", Codec.JStr "ping")]].
Proof.
  intro msgs. split; [reflexivity|]. apply echo_handler_reply_stable. reflexivity.
Defined.

(* ------------------------------------------------------------------------- *)
(** ** Retry Policy Engine, as the tests drive it *)

Section RetryMore.
Context {St A : Type}.
Variable p : Retry.policy.
Variable op : St -> outcome A * St.

Lemma retry_loop_last fuel : forall attempt s,
  exists s', op s' = (Retry.run_outcome (Retry.retry_loop p op fuel attempt s),
                      Retry.run_state (Retry.retry_loop p op fuel attempt s)).
Proof.
  induction fuel as [|f IH]; intros attempt s; simpl;
    destruct (op s) as [[a|e] s1] eqn:E.
  - exists s. rewrite E. reflexivity.
  - destruct (_ && _); exists s; rewrite E; reflexivity.
  - exists s. rewrite E. reflexivity.
  - destruct (_ && _); simpl; [apply IH | exists s; rewrite E; reflexivity].
Qed.

Lemma retry_loop_calls fuel : forall attempt s,
  let r := Retry.retry_loop p op fuel attempt s in
  attempt <= Retry.run_calls r <= Nat.max attempt (Retry.max_attempts p) /\
  List.length (Retry.run_waits r) = Retry.run_calls r - attempt /\
  Forall (fun w => exists a, w = Retry.backoff p a) (Retry.run_waits r).
Proof.
  induction fuel as [|f IH]; intros attempt s; simpl;
    destruct (op s) as [[a|e] s1].
  - simpl. repeat split; try lia. constructor.
  - destruct (_ && _); simpl; repeat split; try lia; constructor.
  - simpl. repeat split; try lia. constructor.
  - destruct (Retry.is_retryable_error e && Nat.ltb attempt (Retry.max_attempts p)) eqn:C;
      simpl; [|repeat split; try lia; constructor].
    apply andb_true_iff in C as [_ C]. apply Nat.ltb_lt in C.
    destruct (IH (S attempt) s1) as [[L1 L2] [L3 L4]].
    repeat split; try lia.
    constructor; [eexists; reflexivity | exact L4].
Qed.

Lemma retry_loop_counter (cnt : St -> nat) :
  (forall s, cnt (snd (op s)) = S (cnt s)) ->
  forall fuel attempt s,
    cnt (Retry.run_state (Retry.retry_loop p op fuel attempt s)) + attempt =
    cnt s + Retry.run_calls (Retry.retry_loop p op fuel attempt s) + 1.
Proof.
  intros Hc fuel. induction fuel as [|f IH]; intros attempt s; simpl;
    pose proof (Hc s) as Hs; destruct (op s) as [[a|e] s1]; simpl in *.
  - lia.
  - destruct (_ && _); simpl; lia.
  - lia.
  - destruct (_ && _); simpl; [|lia].
    specialize (IH (S attempt) s1). lia.
Qed.

Lemma retry_loop_exhausts :
  (forall s, exists e, fst (op s) = Raise e /\ Retry.is_retryable_error e = true) ->
  forall fuel attempt s, Retry.max_attempts p <= attempt + fuel ->
    (exists e, Retry.run_outcome (Retry.retry_loop p op fuel attempt s) = Raise e) /\
    Retry.run_calls (Retry.retry_loop p op fuel attempt s) = Nat.max attempt (Retry.max_attempts p).
Proof.
  intros Hf fuel. induction fuel as [|f IH]; intros attempt s Hle; simpl;
    destruct (Hf s) as [e [He Hr]]; destruct (op s) as [o s1]; simpl in He; subst o;
    rewrite Hr; simpl.
  - destruct (Nat.ltb attempt (Retry.max_attempts p)) eqn:C;
      simpl; (split; [eexists; reflexivity|]); apply Nat.ltb_lt in C || apply Nat.ltb_ge in C; lia.
  - destruct (Nat.ltb attempt (Retry.max_attempts p)) eqn:C; simpl.
    + apply Nat.ltb_lt in C. destruct (IH (S attempt) s1) as [H1 H2]; [lia|].
      split; [exact H1|]. rewrite H2. lia.
    + apply Nat.ltb_ge in C. split; [eexists; reflexivity | lia].
Qed.

Lemma retry_loop_succeeds_after (st : nat -> St) (es : nat -> exn) (v : A) (sf : St) :
  forall n i fuel,
    n <= fuel -> i + n < Retry.max_attempts p ->
    (forall j, j < n -> op (st (i + j)) = (Raise (es (i + j)), st (S (i + j))) /\
                        Retry.is_retryable_error (es (i + j)) = true) ->
    op (st (i + n)) = (Ok v, sf) ->
    Retry.retry_loop p op fuel (S i) (st i) =
      Retry.mk_run (Ok v) sf (S (i + n)) (map (Retry.backoff p) (seq (S i) n)).
Proof.
  induction n as [|n IH]; intros i fuel Hfuel Hmax Hfail Hok.
  - destruct fuel; simpl; rewrite Nat.add_0_r in Hok; rewrite Hok, Nat.add_0_r; reflexivity.
  - destruct fuel as [|f]; [lia|]. simpl.
    destruct (Hfail 0 ltac:(lia)) as [E0 R0]. rewrite Nat.add_0_r in E0, R0.
    rewrite E0, R0. simpl.
    assert (C : Nat.ltb (S i) (Retry.max_attempts p) = true) by (apply Nat.ltb_lt; lia).
    rewrite C.
    rewrite (IH (S i) f).
    + simpl. f_equal. lia.
    + lia.
    + lia.
    + intros j Hj. replace (S i + j) with (i + S j) by lia. apply Hfail. lia.
    + replace (S i + n) with (i + S n) by lia. exact Hok.
Qed.

End RetryMore.

(** Whatever the policy, the caller gets exactly what one invocation of
    the operation returned (the last one): the same value, or the same
    exception object, never a wrapper; the operation's state is the one
    that invocation left. *)
Theorem retry_returns_last_invocation :
  forall (St A : Type) (p : Retry.policy) (op : St -> outcome A * St) (s : St),
    exists s', op s' = (Retry.run_outcome (Retry.execute_with_retry p op s),
                        Retry.run_state (Retry.execute_with_retry p op s)).
Proof. intros. apply retry_loop_last. Qed.

(** The operation runs at least once and at most [max(1, max_attempts)]
    times; there is one wait between each two attempts, and each wait lies
    in [[min_wait, max_wait]] when [min_wait <= max_wait]. *)
Theorem retry_call_bounds :
  forall (St A : Type) (p : Retry.policy) (op : St -> outcome A * St) (s : St),
    let r := Retry.execute_with_retry p op s in
    1 <= Retry.run_calls r <= Nat.max 1 (Retry.max_attempts p) /\
    List.length (Retry.run_waits r) = Retry.run_calls r - 1 /\
    ((Retry.min_wait p <= Retry.max_wait p)%Z ->
     Forall (fun w => Retry.min_wait p <= w <= Retry.max_wait p)%Z (Retry.run_waits r)).
Proof.
  intros St A p op s r.
  destruct (retry_loop_calls p op (Retry.max_attempts p) 1 s) as [L1 [L2 L3]].
  split; [exact L1|]. split; [exact L2|].
  intro Hmw. eapply Forall_impl; [|exact L3].
  intros w [a ->]. unfold Retry.backoff. lia.
Qed.

Lemma retry_call_bounds_witness :
  let r := Retry.execute_with_retry (Retry.mk_policy 3 100 200) (flaky_func 3) 0 in
  (100 <= 200)%Z /\
  Forall (fun w => 100 <= w <= 200)%Z (Retry.run_waits r).
Proof.
  intro r. split; [lia|].
  destruct (retry_call_bounds nat string (Retry.mk_policy 3 100 200) (flaky_func 3) 0)
    as [_ [_ H]].
  apply H. simpl. lia.
Defined.

(** An operation that raises transient errors on its first [k - 1]
    invocations and returns [v] on the [k]-th, with [1 <= k <= max_attempts],
    returns [v] after exactly [k] invocations, with the [k - 1] backoff
    waits in between. *)
Theorem retry_success_after_failures :
  forall (St A : Type) (p : Retry.policy) (op : St -> outcome A * St)
         (st : nat -> St) (es : nat -> exn) (v : A) (sf : St) (k : nat),
    1 <= k <= Retry.max_attempts p ->
    (forall j, j < k - 1 -> op (st j) = (Raise (es j), st (S j)) /\
                            Retry.is_retryable_error (es j) = true) ->
    op (st (k - 1)) = (Ok v, sf) ->
    Retry.execute_with_retry p op (st 0) =
      Retry.mk_run (Ok v) sf k (map (Retry.backoff p) (seq 1 (k - 1))).
Proof.
  intros St A p op st es v sf k Hk Hfail Hok.
  unfold Retry.execute_with_retry.
  assert (Hr : Retry.retry_loop p op (Retry.max_attempts p) (S 0) (st 0) =
    Retry.mk_run (Ok v) sf (S (0 + (k - 1))) (map (Retry.backoff p) (seq (S 0) (k - 1)))).
  { apply (retry_loop_succeeds_after p op st es v sf (k - 1) 0); try lia.
    - intros j Hj. apply Hfail. lia.
    - exact Hok. }
  rewrite Hr. f_equal. lia.
Qed.

Lemma retry_success_after_failures_witness :
  let e := mk_exn ConnectionError "Temporary error" in
  (1 <= 3 <= Retry.max_attempts (Retry.mk_policy 5 100 200) /\
   (forall j, j < 3 - 1 -> flaky_func 3 j = (Raise e, S j) /\ Retry.is_retryable_error e = true) /\
   flaky_func 3 (3 - 1) = (Ok "success", 3)) /\
  Retry.execute_with_retry (Retry.mk_policy 5 100 200) (flaky_func 3) 0 =
    Retry.mk_run (Ok "success") 3 3
      (map (Retry.backoff (Retry.mk_policy 5 100 200)) (seq 1 (3 - 1))).
Proof.
  intro e.
  assert (Hf : forall j, j < 3 - 1 -> flaky_func 3 j = (Raise e, S j) /\
                                      Retry.is_retryable_error e = true).
  { intros j Hj. destruct j as [|[|j]]; [split; reflexivity | split; reflexivity | lia]. }
  split; [split; [simpl; lia | split; [exact Hf | reflexivity]]|].
  apply (retry_success_after_failures nat string (Retry.mk_policy 5 100 200) (flaky_func 3)
           (fun j => j) (fun _ => e) "success" 3 3).
  - simpl. lia.
  - exact Hf.
  - reflexivity.
Defined.

(** An operation that fails with a transient error on every invocation
    (not necessarily the same one) is invoked exactly
    [max(1, max_attempts)] times and the caller gets an exception. *)
Theorem retry_exhaustion_general :
  forall (St A : Type) (p : Retry.policy) (op : St -> outcome A * St) (s : St),
    (forall s', exists e, fst (op s') = Raise e /\ Retry.is_retryable_error e = true) ->
    (exists e, Retry.run_outcome (Retry.execute_with_retry p op s) = Raise e) /\
    Retry.run_calls (Retry.execute_with_retry p op s) = Nat.max 1 (Retry.max_attempts p).
Proof.
  intros St A p op s Hf. apply retry_loop_exhausts; [exact Hf | lia].
Qed.

Lemma retry_exhaustion_general_witness :
  let op := fun c : nat => (@Raise string (mk_exn TimeoutError "Database timeout"), S c) in
  (forall s', exists e, fst (op s') = Raise e /\ Retry.is_retryable_error e = true) /\
  ((exists e, Retry.run_outcome (Retry.execute_with_retry Retry.storage_policy op 0) = Raise e) /\
   Retry.run_calls (Retry.execute_with_retry Retry.storage_policy op 0) =
     Nat.max 1 (Retry.max_attempts Retry.storage_policy)).
Proof.
  intro op.
  assert (H : forall s', exists e, fst (op s') = Raise e /\ Retry.is_retryable_error e = true).
  { intro s'. eexists. split; reflexivity. }
  split; [exact H|]. apply retry_exhaustion_general. exact H.
Defined.

(** The tests count invocations with a [call_count] the operation bumps on
    every call: after the engine returns, that count has grown by exactly
    the number of invocations. *)
Theorem retry_call_count_observed :
  forall (St A : Type) (p : Retry.policy) (op : St -> outcome A * St)
         (cnt : St -> nat) (s : St),
    (forall s', cnt (snd (op s')) = S (cnt s')) ->
    cnt (Retry.run_state (Retry.execute_with_retry p op s)) =
      cnt s + Retry.run_calls (Retry.execute_with_retry p op s).
Proof.
  intros St A p op cnt s Hc.
  pose proof (retry_loop_counter p op cnt Hc (Retry.max_attempts p) 1 s). 
  unfold Retry.execute_with_retry. lia.
Qed.

Lemma retry_call_count_observed_witness :
  (forall s', snd (flaky_func 2 s') = S s') /\
  Retry.run_state (Retry.execute_with_retry Retry.worker_policy (flaky_func 2) 0) =
    0 + Retry.run_calls (Retry.execute_with_retry Retry.worker_policy (flaky_func 2) 0).
Proof.
  assert (H : forall s', snd (flaky_func 2 s') = S s').
  { intro s'. unfold flaky_func. destruct (Nat.ltb _ _); reflexivity. }
  split; [exact H|].
  apply (retry_call_count_observed nat string Retry.worker_policy (flaky_func 2) (fun c => c) 0).
  exact H.
Defined.

(** Retrying a function that opens an [async with] resource on each
    attempt leaves every resource it opened closed, whether the attempts
    succeed or raise: one new resource per invocation, each with
    [closed = True] when the engine returns. *)
Theorem retry_async_resource_always_closed :
  forall (B A : Type) (p : Retry.policy) (operation : B -> outcome A * B)
         (rs : list bool) (b : B),
    Forall (fun c => c = true) rs ->
    let r := Retry.execute_with_retry p (AsyncResource.use_resource operation) (rs, b) in
    Forall (fun c => c = true) (fst (Retry.run_state r)) /\
    List.length (fst (Retry.run_state r)) = List.length rs + Retry.run_calls r.
Proof.
  intros B A p operation rs b Hrs r.
  assert (Hstep : forall st, Forall (fun c => c = true) (fst st) ->
            Forall (fun c => c = true) (fst (snd (AsyncResource.use_resource operation st)))
            /\ List.length (fst (snd (AsyncResource.use_resource operation st))) =
               S (List.length (fst st))).
  { intros [rs0 b0] H0. unfold AsyncResource.use_resource, AsyncResource.aexit.
    destruct (operation b0) as [o b']. simpl.
    rewrite removelast_last. split.
    - apply Forall_app. split; [exact H0 | constructor; [reflexivity | constructor]].
    - rewrite length_app. simpl. lia. }
  split.
  - pose proof (retry_loop_inv p (AsyncResource.use_resource operation)
                  (fun st => Forall (fun c => c = true) (fst st))
                  (fun _ st => Forall (fun c => c = true) (fst st))) as Hinv.
    assert (Hop : forall st, Forall (fun c => c = true) (fst st) ->
              match AsyncResource.use_resource operation st with
              | (Ok a, s') => Forall (fun c => c = true) (fst s')
              | (Raise _, s') => Forall (fun c => c = true) (fst s')
              end).
    { intros st Hst. destruct (Hstep st Hst) as [Hf _].
      destruct (AsyncResource.use_resource operation st) as [[a|e] s']; exact Hf. }
    specialize (Hinv Hop (Retry.max_attempts p) 1 (rs, b) Hrs).
    unfold r, Retry.execute_with_retry.
    destruct (Retry.run_outcome _); exact Hinv.
  - assert (Hlen : forall st, List.length (fst (snd (AsyncResource.use_resource operation st))) =
                              S (List.length (fst st))).
    { intros [rs0 b0]. unfold AsyncResource.use_resource, AsyncResource.aexit.
      destruct (operation b0) as [o b']. simpl.
      rewrite removelast_last, length_app. simpl. lia. }
    pose proof (retry_loop_counter p (AsyncResource.use_resource operation)
                  (fun st => List.length (fst st)) Hlen (Retry.max_attempts p) 1 (rs, b)) as Hc.
    unfold r, Retry.execute_with_retry. simpl in Hc. lia.
Qed.

Lemma retry_async_resource_always_closed_witness :
  Forall (fun c => c = true) [] /\
  let r := Retry.execute_with_retry (Retry.mk_policy 2 100 200)
             (AsyncResource.use_resource (fun u : unit => (Ok "success", u))) ([], tt) in
  Forall (fun c => c = true) (fst (Retry.run_state r)) /\
  List.length (fst (Retry.run_state r)) = List.length (@nil bool) + Retry.run_calls r.
Proof.
  split; [constructor|].
  apply (retry_async_resource_always_closed unit string (Retry.mk_policy 2 100 200)
           (fun u : unit => (Ok "success", u)) [] tt).
  constructor.
Defined.

Module StorageMore.
Import Codec.

Lemma normalize_has_driver (url : string) :
  exists rest, Storage.normalize_database_url url = Storage.driver_scheme ++ rest.
Proof.
  unfold Storage.normalize_database_url.
  destruct (String.prefix Storage.driver_scheme url) eqn:H1.
  - revert H1. generalize Storage.driver_scheme as d. clear.
    induction url as [|c url IH]; intros d H; destruct d as [|c' d]; simpl in *;
      try discriminate; try (exists ""; reflexivity).
    + exists (String c url). reflexivity.
    + destruct (Ascii.ascii_dec c' c) as [->|]; [|discriminate].
      destruct (IH d H) as [r E]. exists r. rewrite E at 1. reflexivity.
  - destruct (String.prefix Storage.generic_scheme url); eexists; reflexivity.
Qed.

(** Serialization is the identity on a value holding no raw UUID. *)
Lemma serialize_uuid_free (v : json) :
  has_raw_uuid v = false -> serialize_for_jsonb v = v.
Proof.
  induction v using CodecFacts.json_ind_nested; simpl; intro Hv; try reflexivity;
    try discriminate.
  - f_equal. induction H as [|x l Hx _ IHl]; [reflexivity|].
    simpl in Hv. apply Bool.orb_false_iff in Hv as [H1 H2].
    simpl. rewrite (Hx H1), (IHl H2). reflexivity.
  - f_equal. induction H as [|[k x] l Hx _ IHl]; [reflexivity|].
    simpl in Hv. apply Bool.orb_false_iff in Hv as [H1 H2].
    simpl. simpl in Hx. rewrite (Hx H1), (IHl H2). reflexivity.
Qed.

Lemma str_app_length (a b : string) :
  String.length (a ++ b) = String.length a + String.length b.
Proof. induction a as [|c a IH]; simpl; [reflexivity | rewrite IH; reflexivity]. Qed.

Lemma str_app_inj (a b c d : string) :
  String.length a = String.length c -> a ++ b = c ++ d -> a = c /\ b = d.
Proof.
  revert c. induction a as [|x a IH]; intros [|y c] Hl He; simpl in *;
    try discriminate; [split; [reflexivity | exact He]|].
  injection He as -> He. injection Hl as Hl.
  destruct (IH c Hl He) as [-> ->]. split; reflexivity.
Qed.

Lemma substring_length (n m : nat) (s : string) :
  n + m <= String.length s -> String.length (substring n m s) = m.
Proof.
  revert n m. induction s as [|c s IH]; intros n m H.
  - simpl in H. assert (n = 0) by lia. assert (m = 0) by lia. subst. reflexivity.
  - destruct n as [|n]; destruct m as [|m]; simpl in *; try reflexivity;
      try (rewrite IH by lia; reflexivity); apply IH; lia.
Qed.

Lemma hex_digits_length (k : nat) (n : N) : String.length (hex_digits k n) = k.
Proof.
  revert n. induction k as [|k IH]; intro n; simpl; [reflexivity|].
  rewrite str_app_length, IH. simpl. lia.
Qed.

Lemma hex_char_inj (d1 d2 : N) :
  (d1 < 16)%N -> (d2 < 16)%N -> hex_char d1 = hex_char d2 -> d1 = d2.
Proof.
  intros H1 H2 E. unfold hex_char in E.
  enough (N.to_nat d1 = N.to_nat d2) by lia.
  assert (L1 : N.to_nat d1 < 16) by lia. assert (L2 : N.to_nat d2 < 16) by lia.
  revert E L1 L2. generalize (N.to_nat d1) as n1. generalize (N.to_nat d2) as n2.
  intros n2 n1.
  do 16 (destruct n1 as [|n1];
    [do 16 (destruct n2 as [|n2]; [intros E _ _; simpl in E; (reflexivity || discriminate) |]);
     intros _ _ L2; lia |]).
  intros _ L1 _. lia.
Qed.

(** Equal [k]-digit renderings mean equal values modulo [16^k]. *)
Lemma hex_digits_inj (k : nat) (n m : N) :
  hex_digits k n = hex_digits k m -> (n mod 16 ^ N.of_nat k = m mod 16 ^ N.of_nat k)%N.
Proof.
  revert n m. induction k as [|k IH]; intros n m H.
  - simpl. rewrite !N.mod_1_r. reflexivity.
  - simpl in H.
    apply str_app_inj in H; [|rewrite !hex_digits_length; reflexivity].
    destruct H as [Hh Hc]. injection Hc as Hc.
    apply hex_char_inj in Hc; [|apply N.mod_lt; lia | apply N.mod_lt; lia].
    specialize (IH _ _ Hh).
    rewrite Nat2N.inj_succ, N.pow_succ_r'.
    rewrite !N.Div0.mod_mul_r.
    rewrite Hc, IH. reflexivity.
Qed.

(** The 8-4-4-4-12 grouping loses nothing on a 32-digit string. *)
Lemma uuid_groups_inj (h1 h2 : string) :
  String.length h1 = 32 -> String.length h2 = 32 ->
  (substring 0 8 h1 ++ "-" ++ substring 8 4 h1 ++ "-" ++ substring 12 4 h1 ++ "-"
   ++ substring 16 4 h1 ++ "-" ++ substring 20 12 h1) =
  (substring 0 8 h2 ++ "-" ++ substring 8 4 h2 ++ "-" ++ substring 12 4 h2 ++ "-"
   ++ substring 16 4 h2 ++ "-" ++ substring 20 12 h2) -> h1 = h2.
Proof.
  intros L1 L2.
  do 32 (destruct h1 as [|? h1]; [discriminate L1|]).
  destruct h1; [|discriminate L1].
  do 32 (destruct h2 as [|? h2]; [discriminate L2|]).
  destruct h2; [|discriminate L2].
  simpl. intro E. injection E. intros. subst. reflexivity.
Qed.

End StorageMore.

(** [PostgresStorage(url)] for any [url]: not connected yet, and the
    stored address starts with [postgresql+asyncpg://] and never with the
    bare [postgresql://] scheme. *)
Theorem postgres_storage_init :
  forall url,
    Storage._engine (Storage.PostgresStorage url) = None /\
    Storage._session_factory (Storage.PostgresStorage url) = None /\
    String.prefix "postgresql+asyncpg://" (Storage.database_url (Storage.PostgresStorage url)) = true /\
    String.prefix "postgresql://" (Storage.database_url (Storage.PostgresStorage url)) = false.
Proof.
  intro url. destruct (StorageMore.normalize_has_driver url) as [rest E].
  simpl. rewrite E. split; [reflexivity|]. split; [reflexivity|].
  split; [apply UrlFacts.prefix_app | reflexivity].
Qed.


(** Serializing twice is serializing once, and a value holding no raw UUID
    is returned as it is. *)
Theorem serialize_for_jsonb_idempotent :
  (forall v, Codec.serialize_for_jsonb (Codec.serialize_for_jsonb v) =
             Codec.serialize_for_jsonb v) /\
  (forall v, Codec.has_raw_uuid v = false -> Codec.serialize_for_jsonb v = v).
Proof.
  split.
  - intro v. apply StorageMore.serialize_uuid_free, CodecFacts.serialize_no_raw_uuid.
  - exact StorageMore.serialize_uuid_free.
Qed.

Lemma serialize_for_jsonb_idempotent_witness :
  Codec.has_raw_uuid (Codec.JDict [("empty", Codec.JList [])]) = false /\
  Codec.serialize_for_jsonb (Codec.JDict [("empty", Codec.JList [])]) =
    Codec.JDict [("empty", Codec.JList [])].
Proof.
  split; [reflexivity|].
  apply (proj2 serialize_for_jsonb_idempotent). reflexivity.
Defined.

(** Distinct 128-bit UUIDs serialize to distinct strings, each of the
    36 characters of the 8-4-4-4-12 form. *)
Theorem serialize_uuid_injective :
  forall u1 u2 : Codec.uuid,
    (u1 < 2 ^ 128)%N -> (u2 < 2 ^ 128)%N -> u1 <> u2 ->
    Codec.serialize_for_jsonb (Codec.JUuid u1) <> Codec.serialize_for_jsonb (Codec.JUuid u2) /\
    String.length (Codec.uuid_str u1) = 36.
Proof.
  intros u1 u2 H1 H2 Hne. split.
  - cbn [Codec.serialize_for_jsonb]. intro E. apply Hne.
    apply (f_equal (fun j => match j with Codec.JStr t => t | _ => "" end)) in E.
    cbv beta iota in E.
    unfold Codec.uuid_str in E.
    apply StorageMore.uuid_groups_inj in E; try apply StorageMore.hex_digits_length.
    apply StorageMore.hex_digits_inj in E.
    replace (16 ^ N.of_nat 32)%N with (2 ^ 128)%N in E by reflexivity.
    rewrite !N.mod_small in E by assumption. exact E.
  - unfold Codec.uuid_str.
    rewrite !StorageMore.str_app_length.
    rewrite !StorageMore.substring_length by (rewrite StorageMore.hex_digits_length; lia).
    reflexivity.
Qed.

Lemma serialize_uuid_injective_witness :
  ((1 < 2 ^ 128)%N /\ (2 < 2 ^ 128)%N /\ (1 <> 2)%N) /\
  Codec.serialize_for_jsonb (Codec.JUuid 1%N) <> Codec.serialize_for_jsonb (Codec.JUuid 2%N) /\
  String.length (Codec.uuid_str 1%N) = 36.
Proof.
  assert (H : (1 < 2 ^ 128)%N /\ (2 < 2 ^ 128)%N /\ (1 <> 2)%N) by (repeat split; lia).
  split; [exact H|].
  destruct H as [H1 [H2 H3]].
  exact (serialize_uuid_injective 1%N 2%N H1 H2 H3).
Defined.
